(** * PetClaw boundary fill, CFL reduction and the sphere application

    A shallow embedding of
      - [petclaw/evolve/clawpack.py]: [PetClawSolver.qbc], [qbc_lower],
        [qbc_upper] and [communicateCFL];
      - [apps/shallow-sphere/shallow-4-Rossby-Haurwitz-wave.py]: the two
        sphere mappings, point by point and on whole arrays, and [qinit].

    Python integers are [Z] and floats are rationals; a numpy array is its
    shape together with a total function from multi-indices to entries; an
    in-place update is a new array, a view writes through to its base, and an
    exception carries the array as it stood when raised. *)

From Stdlib Require Import ZArith List String Bool Lia QArith Qminmax Qabs Lqa.
Import ListNotations.
Open Scope string_scope.
Open Scope list_scope.
Open Scope Z_scope.

(** ** Python exceptions *)

Inductive exn : Type :=
| NameError (name : string)
| AttributeError (attr : string)
| TypeError
| IndexError
| ValueError
| NotImplementedError (fmt : string) (arg : Z).

(** ** numpy arrays *)

(** [shape] is the numpy shape (the component axis first, then one axis per
    grid dimension, ghost cells included); [item] reads one entry. *)
Record ndarray (V : Type) : Type := mk_ndarray {
  shape : list nat;
  item : list nat -> V
}.
Arguments mk_ndarray {V} _ _.
Arguments shape {V} _.
Arguments item {V} _ _.

(** The element type: floating-point numbers, of which the boundary fill
    uses the unary minus only. *)
Class Negate (V : Type) : Type := neg : V -> V.

(** The state of a run of in-place updates on one array: finished, or
    stopped by an exception with the array as written so far. *)
Inductive outcome (V : Type) : Type :=
| Done (q : ndarray V)
| Raised (e : exn) (q : ndarray V).
Arguments Done {V} _.
Arguments Raised {V} _ _.

Definition final {V} (o : outcome V) : ndarray V :=
  match o with
  | Done q => q
  | Raised _ q => q
  end.

Definition bind {V} (o : outcome V) (f : ndarray V -> outcome V) : outcome V :=
  match o with
  | Done q => f q
  | Raised e q => Raised e q
  end.

Notation "o >>= f" := (bind o f) (at level 50, left associativity).

(** numpy's integer indexing along an axis of length [len]: [0 <= k < len]
    is itself, [-len <= k < 0] counts from the end, anything else is an
    [IndexError] (here [None]). *)
Definition norm_index (len : nat) (k : Z) : option nat :=
  if (0 <=? k) && (k <? Z.of_nat len) then Some (Z.to_nat k)
  else if (- Z.of_nat len <=? k) && (k <? 0) then Some (Z.to_nat (Z.of_nat len + k))
  else None.

(** [qbc[:,i,...] = qbc[:,s,...]] *)
Definition copy_slab {V} (i s : Z) (qbc : ndarray V) : outcome V :=
  match shape qbc with
  | _ :: len :: _ =>
      match norm_index len s, norm_index len i with
      | Some s', Some i' =>
          Done (mk_ndarray (shape qbc)
                  (fun idx =>
                     match idx with
                     | m :: k :: rest =>
                         if Nat.eqb k i' then item qbc (m :: s' :: rest)
                         else item qbc idx
                     | _ => item qbc idx
                     end))
      | _, _ => Raised IndexError qbc
      end
  | _ => Raised IndexError qbc
  end.

(** [qbc[c,i,...] = -qbc[c,s,...]] *)
Definition negate_slab {V} `{Negate V} (c i s : Z) (qbc : ndarray V) : outcome V :=
  match shape qbc with
  | meqn :: len :: _ =>
      match norm_index meqn c, norm_index len s, norm_index len i with
      | Some c', Some s', Some i' =>
          Done (mk_ndarray (shape qbc)
                  (fun idx =>
                     match idx with
                     | m :: k :: rest =>
                         if Nat.eqb m c' && Nat.eqb k i'
                         then neg (item qbc (c' :: s' :: rest))
                         else item qbc idx
                     | _ => item qbc idx
                     end))
      | _, _, _ => Raised IndexError qbc
      end
  | _ => Raised IndexError qbc
  end.

(** [xrange(n)] and the [for] loop over it. *)
Definition xrange (n : Z) : list Z := map Z.of_nat (seq 0 (Z.to_nat n)).

Fixpoint for_each {V} (l : list Z) (body : Z -> ndarray V -> outcome V)
    (q : ndarray V) : outcome V :=
  match l with
  | [] => Done q
  | i :: l' => body i q >>= for_each l' body
  end.

(** *** [np.rollaxis] *)

Definition remove_at {A} (k : nat) (l : list A) : list A :=
  firstn k l ++ skipn (S k) l.

Definition insert_at {A} (k : nat) (x : A) (l : list A) : list A :=
  firstn k l ++ x :: skipn k l.

(** Take the entry at position [from] out and put it back at position [to]. *)
Definition move_axis (from to : nat) (l : list nat) : list nat :=
  insert_at to (nth from l 0%nat) (remove_at from l).

(** The position [np.rollaxis(a, axis, start)] moves [axis] to. *)
Definition roll_target (axis start : nat) : nat :=
  if (axis <? start)%nat then (start - 1)%nat else start.

(** [np.rollaxis(a, axis, start)]: a view of [a] with [axis] moved in front
    of position [start]; [None] is numpy's [ValueError] for an axis out of
    range.  When the axis is already in place numpy returns [a] itself. *)
Definition rollaxis {V} (a : ndarray V) (axis start : nat) : option (ndarray V) :=
  let nd := List.length (shape a) in
  if negb (axis <? nd)%nat || negb (start <=? nd)%nat then None
  else
    let tgt := roll_target axis start in
    if Nat.eqb axis tgt then Some a
    else Some (mk_ndarray (move_axis axis tgt (shape a))
                 (fun idx => item a (move_axis tgt axis idx))).

(** The view shares the memory of [a]: after the view was updated to [v'],
    [a] reads the entries of [v'] at the permuted index.  Item assignment
    never changes a shape. *)
Definition write_back {V} (a : ndarray V) (axis start : nat) (v' : ndarray V)
    : ndarray V :=
  let tgt := roll_target axis start in
  if Nat.eqb axis tgt then v'
  else mk_ndarray (shape a) (fun idx => item v' (move_axis axis tgt idx)).

(** Run [f] on [np.rollaxis(qbc, axis, 1)]; what [f] writes lands in [qbc]. *)
Definition on_rolled {V} (qbc : ndarray V) (axis : nat)
    (f : ndarray V -> outcome V) : outcome V :=
  match rollaxis qbc axis 1 with
  | None => Raised ValueError qbc
  | Some v =>
      match f v with
      | Done v' => Done (write_back qbc axis 1 v')
      | Raised e v' => Raised e (write_back qbc axis 1 v')
      end
  end.

(** ** Grid and dimension objects, as far as the solver reads them *)

Record Dimension : Type := mk_Dimension {
  name : string;
  mthbc_lower : Z;
  mthbc_upper : Z;
  nstart : Z;
  nend : Z;
  n : Z
}.

Record Grid (V : Type) : Type := mk_Grid {
  ndim : Z;
  mbc : Z;
  dimensions : list Dimension;
  ghosted_q : ndarray V
}.
Arguments mk_Grid {V} _ _ _ _.
Arguments ndim {V} _.
Arguments mbc {V} _.
Arguments dimensions {V} _.
Arguments ghosted_q {V} _.

(** *** Name lookup for the [raise] statements

    Both [raise] statements of [qbc_lower] and of [qbc_upper] build their
    message from [x.mthbc_lower].  A name is looked up among the locals of
    the method, then among the module's globals; no builtin is called [x]. *)

Inductive pyobj (V : Type) : Type :=
| PyDimension (d : Dimension)
| PyGrid (g : Grid V)
| PyArray (q : ndarray V)
| PyOpaque.
Arguments PyDimension {V} _.
Arguments PyGrid {V} _.
Arguments PyArray {V} _.
Arguments PyOpaque {V}.

(** The names [petclaw/evolve/clawpack.py] binds at module level. *)
Definition module_globals : list string :=
  ["np"; "pdb"; "ClawSolver"; "ClawSolver1D"; "ClawSolver2D"; "start_step";
   "src"; "limiters"; "PETSc"; "MPI"; "PetClawSolver"; "PetClawSolver1D";
   "PetClawSolver2D"].

Definition lookup_name {V} (locals : list (string * pyobj V)) (x : string)
    : option (pyobj V) :=
  match find (fun p => String.eqb (fst p) x) locals with
  | Some p => Some (snd p)
  | None => if existsb (String.eqb x) module_globals then Some PyOpaque else None
  end.

(** The locals of [qbc_lower(self,grid,dim,qbc)] and
    [qbc_upper(self,grid,dim,qbc)] where they raise (no loop has run there,
    so [i] is unbound). *)
Definition bc_locals {V} (grid : Grid V) (dim : Dimension) (qbc : ndarray V)
    : list (string * pyobj V) :=
  [("self", PyOpaque); ("grid", PyGrid grid); ("dim", PyDimension dim);
   ("qbc", PyArray qbc)].

(** [raise NotImplementedError(fmt % x.mthbc_lower)], for the name [x] as
    written: the argument is evaluated first. *)
Definition raise_NotImplementedError {V} (locals : list (string * pyobj V))
    (fmt : string) (x : string) (qbc : ndarray V) : outcome V :=
  match lookup_name locals x with
  | None => Raised (NameError x) qbc
  | Some (PyDimension d) => Raised (NotImplementedError fmt (mthbc_lower d)) qbc
  | Some _ => Raised (AttributeError "mthbc_lower") qbc
  end.

(** ** The solver *)

(** The user-defined boundary conditions are methods the solver inherits;
    they may do anything to the array. *)
Class UserBC (V : Type) : Type := {
  user_bc_lower : Grid V -> Dimension -> ndarray V -> outcome V;
  user_bc_upper : Grid V -> Dimension -> ndarray V -> outcome V
}.

(** One pass of the solid-wall loop body at the lower side:
    [qbc[:,i,...] = qbc[:,mbc+1-i,...]; qbc[c,i,...] = -qbc[c,mbc+1-i,...]]. *)
Definition wall_lower_body {V} `{Negate V} (mbc : Z) (c : Z) (i : Z)
    (qbc : ndarray V) : outcome V :=
  copy_slab i (mbc + 1 - i) qbc >>= negate_slab c i (mbc + 1 - i).

(** and at the upper side:
    [qbc[:,-i-1,...] = qbc[:,-mbc-2+i,...]; qbc[c,-i-1,...] = -qbc[c,-mbc-2+i,...]]. *)
Definition wall_upper_body {V} `{Negate V} (mbc : Z) (c : Z) (i : Z)
    (qbc : ndarray V) : outcome V :=
  copy_slab (- i - 1) (- mbc - 2 + i) qbc >>= negate_slab c (- i - 1) (- mbc - 2 + i).

Definition qbc_lower {V} `{Negate V} `{UserBC V} (grid : Grid V) (dim : Dimension)
    (qbc : ndarray V) : outcome V :=
  if mthbc_lower dim =? 0 then user_bc_lower grid dim qbc
  else if mthbc_lower dim =? 1 then
    if nstart dim =? 0 then
      for_each (xrange (mbc grid)) (fun i => copy_slab i (mbc grid)) qbc
    else Done qbc
  else if mthbc_lower dim =? 2 then Done qbc
  else if mthbc_lower dim =? 3 then
    if nstart dim =? 0 then
      if ndim grid =? 1 then
        for_each (xrange (mbc grid)) (wall_lower_body (mbc grid) 1) qbc
      else if ndim grid =? 2 then
        if String.eqb (name dim) "x" then
          for_each (xrange (mbc grid)) (wall_lower_body (mbc grid) 1) qbc
        else
          for_each (xrange (mbc grid)) (wall_lower_body (mbc grid) 2) qbc
      else
        raise_NotImplementedError (bc_locals grid dim qbc)
          "3D wall boundary condition %s not implemented" "x" qbc
    else Done qbc
  else
    raise_NotImplementedError (bc_locals grid dim qbc)
      "Boundary condition %s not implemented" "x" qbc.

Definition qbc_upper {V} `{Negate V} `{UserBC V} (grid : Grid V) (dim : Dimension)
    (qbc : ndarray V) : outcome V :=
  if mthbc_upper dim =? 0 then user_bc_upper grid dim qbc
  else if mthbc_upper dim =? 1 then
    if nend dim =? n dim then
      for_each (xrange (mbc grid)) (fun i => copy_slab (- i - 1) (- mbc grid - 1)) qbc
    else Done qbc
  else if mthbc_upper dim =? 2 then Done qbc
  else if mthbc_upper dim =? 3 then
    if nend dim =? n dim then
      if ndim grid =? 1 then
        for_each (xrange (mbc grid)) (wall_upper_body (mbc grid) 1) qbc
      else if ndim grid =? 2 then
        if String.eqb (name dim) "x" then
          for_each (xrange (mbc grid)) (wall_upper_body (mbc grid) 1) qbc
        else
          for_each (xrange (mbc grid)) (wall_upper_body (mbc grid) 2) qbc
      else
        raise_NotImplementedError (bc_locals grid dim qbc)
          "3D wall boundary condition %s not implemented" "x" qbc
    else Done qbc
  else
    raise_NotImplementedError (bc_locals grid dim qbc)
      "Boundary condition %s not implemented" "x" qbc.

(** The body of [for i,dim in enumerate(grid.dimensions)] and the loop. *)
Definition qbc_dim {V} `{Negate V} `{UserBC V} (grid : Grid V) (i : nat)
    (dim : Dimension) (qbc : ndarray V) : outcome V :=
  (if mthbc_lower dim =? 0 then qbc_lower grid dim qbc
   else on_rolled qbc (i + 1) (qbc_lower grid dim))
  >>= fun qbc =>
  if mthbc_upper dim =? 0 then qbc_upper grid dim qbc
  else on_rolled qbc (i + 1) (qbc_upper grid dim).

Fixpoint qbc_loop {V} `{Negate V} `{UserBC V} (grid : Grid V) (i : nat)
    (dims : list Dimension) (qbc : ndarray V) : outcome V :=
  match dims with
  | [] => Done qbc
  | dim :: dims' => qbc_dim grid i dim qbc >>= qbc_loop grid (S i) dims'
  end.

(** [qbc(self,grid,t,q)]: fills [grid.ghosted_q] and returns it; neither [t]
    nor [q] is read. *)
Definition qbc {V} `{Negate V} `{UserBC V} {T : Type} (grid : Grid V) (t : T)
    (q : ndarray V) : outcome V :=
  qbc_loop grid 0 (dimensions grid) (ghosted_q grid).

(** ** [communicateCFL] *)

(** What [communicateCFL] reads and writes of the solver. *)
Record SolverState : Type := mk_SolverState {
  dt_variable : bool;
  cfl : Q
}.

(** [MPI.MAX] over the send buffers of the ranks, the first rank's apart. *)
Definition Allreduce_MAX (first : Q) (others : list Q) : Q :=
  fold_left Qmax others first.

(** One rank's [communicateCFL(self)], given what [comm.Allreduce] delivers
    for its send buffer. *)
Definition communicateCFL (allreduce : Q -> Q) (self : SolverState) : SolverState :=
  if dt_variable self
  then mk_SolverState (dt_variable self) (allreduce (cfl self))
  else self.

(** All ranks of [COMM_WORLD] run [communicateCFL].  The all-reduce is a
    blocking collective: it returns the maximum to every rank once all ranks
    have entered it, and never returns ([None]) when only some ranks do. *)
Definition communicateCFL_world (ranks : list SolverState) : option (list SolverState) :=
  match ranks with
  | [] => Some []
  | r0 :: rs =>
      if forallb dt_variable ranks then
        Some (map (communicateCFL
                     (fun _ => Allreduce_MAX (cfl r0) (map cfl rs))) ranks)
      else if existsb dt_variable ranks then None
      else Some (map (communicateCFL (fun send => send)) ranks)
  end.

(** Modelled from the spec: the accept test of the step controller, which is
    not among the sources ("if reported CFL <= configured maximum", section
    4.4), on the cfl a rank has stored. *)
Definition accepts (cfl_max : Q) (s : SolverState) : bool := Qle_bool (cfl s) cfl_max.

(** ** The sphere application *)

(** Floating-point numbers are rationals here; the functions of numpy that
    have no rational counterpart are an interface. *)
Class NumPy : Type := {
  np_sqrt : Q -> Q;
  np_arcsin : Q -> Q;
  np_cos : Q -> Q;
  np_sin : Q -> Q;
  np_pi : Q;
  np_power : Q -> Q -> Q
}.

(** A division of floats, [None] when the divisor is zero. *)
Definition fdiv (x y : Q) : option Q :=
  if Qeq_bool y 0 then None else Some (x / y)%Q.

Definition Rsphere : Q := 1.

Definition copysign1 (x : Q) : Q := if Qle_bool 0 x then 1%Q else (-1)%Q.

Definition np_sign (x : Q) : Q :=
  match (x ?= 0)%Q with
  | Lt => (-1)%Q
  | Eq => 0%Q
  | Gt => 1%Q
  end.

(** *** [mapc2p_sphere_nonvectorized], one point [(xc, yc)] *)

(** The folding of the computational point into [[-1,1] x [-1,1]]:
    the new [xc], [yc] and [sgnz]. *)
Definition fold_nonvectorized (xc yc : Q) : Q * Q * Q :=
  let xc := if Qle_bool 1 xc then (xc - 4)%Q else xc in
  let xc := if Qle_bool xc (-3) then (xc + 4)%Q else xc in
  let '(xc, yc) := if Qle_bool 1 yc then ((-2 - xc)%Q, (2 - yc)%Q) else (xc, yc) in
  let '(xc, yc) := if Qle_bool yc (-1) then ((-2 - xc)%Q, (-2 - yc)%Q) else (xc, yc) in
  if Qle_bool xc (-1) then ((-2 - xc)%Q, yc, (-1)%Q) else (xc, yc, 1%Q).

(** [d = np.maximum(np.maximum(xc1,yc1), 1.0e-10)] *)
Definition d_nonvectorized (xc yc : Q) : Q :=
  let '(xc, yc, _) := fold_nonvectorized xc yc in
  Qmax (Qmax (Qabs xc) (Qabs yc)) (1 # 10000000000).

(** The three physical coordinates appended to [pC] for the point. *)
Definition mapc2p_sphere_nonvectorized_point `{NumPy} (xc0 yc0 : Q) : option (Q * Q * Q) :=
  let '(xc, yc, sgnz) := fold_nonvectorized xc0 yc0 in
  let r1 := Rsphere in
  let sgnxc := copysign1 xc in
  let sgnyc := copysign1 yc in
  let xc1 := Qabs xc in
  let yc1 := Qabs yc in
  let d := d_nonvectorized xc0 yc0 in
  let DD := (r1 * d * (2 - d) / np_sqrt 2)%Q in
  let R := r1 in
  let center := (DD - np_sqrt (Qmax (R * R - DD * DD) 0))%Q in
  match fdiv DD d with
  | None => None
  | Some DDd =>
      let xp := (DDd * xc1)%Q in
      let yp := (DDd * yc1)%Q in
      let '(xp, yp) :=
        if Qle_bool xc1 yc1
        then (xp, (center + np_sqrt (Qmax (R * R - xp * xp) 0))%Q)
        else ((center + np_sqrt (Qmax (R * R - yp * yp) 0))%Q, yp) in
      let zp := np_sqrt (Qmax (r1 * r1 - (xp * xp + yp * yp)) 0) in
      Some ((xp * sgnxc)%Q, (yp * sgnyc)%Q, (zp * sgnz)%Q)
  end.

(** *** [mapc2p_sphere_vectorized], one entry of the arrays *)

Definition fold_vectorized (xc yc : Q) : Q * Q * Q :=
  let '(xc, yc) :=
    if negb (Qle_bool (-1) yc) then ((- xc - 2)%Q, (- yc - 2)%Q) else (xc, yc) in
  if negb (Qle_bool (-1) xc) then ((-2 - xc)%Q, yc, (-1)%Q) else (xc, yc, 1%Q).

(** [d = np.maximum(xc1,yc1); d = np.maximum(d, 1e-10)] *)
Definition d_vectorized (xc yc : Q) : Q :=
  let '(xc, yc, _) := fold_vectorized xc yc in
  let d := Qmax (Qabs xc) (Qabs yc) in
  Qmax d (1 # 10000000000).

Definition mapc2p_sphere_vectorized_point `{NumPy} (xc0 yc0 : Q) : option (Q * Q * Q) :=
  let '(xc, yc, sgnz) := fold_vectorized xc0 yc0 in
  let r1 := Rsphere in
  let xc1 := Qabs xc in
  let yc1 := Qabs yc in
  let d := d_vectorized xc0 yc0 in
  let D := (r1 * d * (2 - d) / np_sqrt 2)%Q in
  let R := r1 in
  let center := (D - np_sqrt (R * R - D * D))%Q in
  match fdiv D d with
  | None => None
  | Some Dd =>
      let xp := (Dd * xc1)%Q in
      let yp := (Dd * yc1)%Q in
      let yp := if Qeq_bool yc1 d then (center + np_sqrt (R * R - xp * xp))%Q else yp in
      let xp := if Qeq_bool xc1 d then (center + np_sqrt (R * R - yp * yp))%Q else xp in
      let xp := (np_sign xc * xp)%Q in
      let yp := (np_sign yc * yp)%Q in
      let zp := (sgnz * np_sqrt (r1 * r1 - (xp * xp + yp * yp)))%Q in
      Some (xp, yp, zp)
  end.

(** *** [qinit] *)

(** The names in scope in the body of the cell loop of [qinit] that are
    bound to a float ([Some] of its value) or to another object ([None]):
    the locals of [qinit], then the globals of the module.  [theta], [phi]
    and the names assigned after them are bound from the second cell on;
    they are listed as bound all the same. *)
Definition qinit_scope (xp yp zp rad : Q) : list (string * option Q) :=
  [("state", None); ("mx", None); ("my", None);
   ("a", Some 6371220%Q); ("K", Some (7848 # 1000000000)%Q);
   ("Omega", Some (7292 # 100000000)%Q); ("G", Some (980616 # 100000)%Q);
   ("t0", Some 86400%Q); ("h0", Some 8000%Q); ("R", Some 4%Q);
   ("i", None); ("j", None);
   ("xp", Some xp); ("yp", Some yp); ("zp", Some zp); ("rad", Some rad);
   ("theta", None); ("phi", None); ("bigA", None); ("bigB", None);
   ("bigC", None); ("Uin", None); ("Uout", None);
   ("np", None); ("plot", None); ("plt", None); ("Rsphere", Some Rsphere);
   ("fortran_src_wrapper", None); ("mapc2p_sphere_nonvectorized", None);
   ("mapc2p_sphere_vectorized", None); ("qinit", None);
   ("shallow_sphere", None); ("run_app_from_main", None); ("output", None)].

(** Reading the name [x] where a float is needed. *)
Definition load_float (scope : list (string * option Q)) (x : string) : exn + Q :=
  match find (fun p => String.eqb (fst p) x) scope with
  | None => inl (NameError x)
  | Some (_, None) => inl TypeError
  | Some (_, Some v) => inr v
  end.

(** The longitude [theta] of the cell centre [(xp, yp)].  The four tests
    cover every pair of rationals, so the last [else] is never taken. *)
Definition qinit_theta `{NumPy} (xp yp zp rad : Q) : exn + Q :=
  if Qle_bool 0 xp && Qle_bool 0 yp then
    inr (np_arcsin (yp / rad))%Q
  else if Qle_bool xp 0 && Qle_bool 0 yp then
    inr (np_pi - np_arcsin (yp / rad))%Q
  else if Qle_bool xp 0 && Qle_bool yp 0 then
    match load_float (qinit_scope xp yp zp rad) "pi" with
    | inl e => inl e
    | inr pi => inr (- pi + np_arcsin (- yp / rad))%Q
    end
  else if Qle_bool 0 xp && Qle_bool yp 0 then
    inr (- np_arcsin (- yp / rad))%Q
  else inl (NameError "theta").

Definition qinit_phi `{NumPy} (zp : Q) : Q :=
  if Qle_bool 0 zp then np_arcsin (zp / Rsphere)%Q
  else (- np_arcsin (- zp / Rsphere))%Q.

(** The four components of the Rossby-Haurwitz wave at longitude [xp] and
    latitude [yp]. *)
Definition rossby_haurwitz `{NumPy} (xp yp : Q) : Q * Q * Q * Q :=
  let a := 6371220%Q in
  let K := (7848 # 1000000000)%Q in
  let Omega := (7292 # 100000000)%Q in
  let G := (980616 # 100000)%Q in
  let t0 := 86400%Q in
  let h0 := 8000%Q in
  let R := 4%Q in
  let c := np_cos yp in
  let s := np_sin yp in
  let bigA := (0.5 * K * (2 * Omega + K) * np_power c 2
               + 0.25 * K * K * np_power c (2 * R)
                 * ((1 * R + 1) * np_power c 2 + (2 * R * R - 1 * R - 2)
                    - 2 * R * R * np_power c (-2)))%Q in
  let bigB := ((2 * (Omega + K) * K) / ((1 * R + 1) * (1 * R + 2))
               * np_power c R
               * ((1 * R * R + 2 * R + 2) - np_power (1 * R + 1) 2 * np_power c 2))%Q in
  let bigC := (0.25 * K * K * np_power c (2 * R)
               * ((1 * R + 1) * np_power c 2 - (1 * R + 2)))%Q in
  let Uin0 := ((K * c + K * np_power c (R - 1)
                        * (R * np_power s 2 - np_power c 2) * np_cos (R * xp)) * t0)%Q in
  let Uin1 := ((- K * R * np_power c (R - 1) * s * np_sin (R * xp)) * t0)%Q in
  let Uout0 := (- np_sin xp * Uin0 - s * np_cos xp * Uin1)%Q in
  let Uout1 := (np_cos xp * Uin0 - s * np_sin xp * Uin1)%Q in
  let Uout2 := (c * Uin1)%Q in
  let q0 := (h0 / a + (a / G) * (bigA + bigB * np_cos (R * xp)
                                  + bigC * np_cos (2 * R * xp)))%Q in
  (q0, (q0 * Uout0)%Q, (q0 * Uout1)%Q, (q0 * Uout2)%Q).

(** [state.q[c,i,j] = v], for the three-axis [state.q] of this application. *)
Definition set_item3 {V} (c i j : Z) (v : V) (q : ndarray V) : outcome V :=
  match shape q with
  | [s0; s1; s2] =>
      match norm_index s0 c, norm_index s1 i, norm_index s2 j with
      | Some c', Some i', Some j' =>
          Done (mk_ndarray (shape q)
                  (fun idx =>
                     match idx with
                     | [a; b; d] =>
                         if Nat.eqb a c' && Nat.eqb b i' && Nat.eqb d j' then v
                         else item q idx
                     | _ => item q idx
                     end))
      | _, _, _ => Raised IndexError q
      end
  | _ => Raised IndexError q
  end.

(** The body of the double loop for the cell [(i, j)] with physical centre
    [p]. *)
Definition qinit_cell `{NumPy} (p_center : nat -> nat -> Q * Q * Q) (ij : nat * nat)
    (q : ndarray Q) : outcome Q :=
  let '(i, j) := ij in
  let '(xp, yp, zp) := p_center i j in
  let rad := Qmax (np_sqrt (xp * xp + yp * yp)) (1 # 1000000) in
  match qinit_theta xp yp zp rad with
  | inl e => Raised e q
  | inr theta =>
      let phi := qinit_phi zp in
      let '(q0, q1, q2, q3) := rossby_haurwitz theta phi in
      set_item3 0 (Z.of_nat i) (Z.of_nat j) q0 q
      >>= set_item3 1 (Z.of_nat i) (Z.of_nat j) q1
      >>= set_item3 2 (Z.of_nat i) (Z.of_nat j) q2
      >>= set_item3 3 (Z.of_nat i) (Z.of_nat j) q3
  end.

(** [for i in range(mx): for j in range(my)], in the order of the loops. *)
Definition cells (mx my : Z) : list (nat * nat) :=
  flat_map (fun i => map (fun j => (i, j)) (seq 0 (Z.to_nat my))) (seq 0 (Z.to_nat mx)).

Fixpoint for_cells {V} (l : list (nat * nat)) (body : nat * nat -> ndarray V -> outcome V)
    (q : ndarray V) : outcome V :=
  match l with
  | [] => Done q
  | ij :: l' => body ij q >>= for_cells l' body
  end.

(** [qinit(state,mx,my)] on [state.q], with [state.grid.p_center] as
    [compute_p_center] left it. *)
Definition qinit `{NumPy} (p_center : nat -> nat -> Q * Q * Q) (q : ndarray Q)
    (mx my : Z) : outcome Q :=
  for_cells (cells mx my) (qinit_cell p_center) q.

(** *** The sphere mappings on whole arrays

    [mC] is the pair of arrays [mC[0]], [mC[1]] of the computational
    coordinates, of the shape [(mx, my)] of [grid.ng]; an array of floats is
    a function of its two indices.  An entry that is no number (the quotient
    by a zero divisor) is [None]. *)

(** The cell loop of [mapc2p_sphere_nonvectorized]: three [pC.append] per
    cell. *)
Fixpoint append_points `{NumPy} (xs ys : nat -> nat -> Q) (l : list (nat * nat))
    (pC : list Q) : option (list Q) :=
  match l with
  | [] => Some pC
  | (i, j) :: l' =>
      match mapc2p_sphere_nonvectorized_point (xs i j) (ys i j) with
      | None => None
      | Some (xp, yp, zp) => append_points xs ys l' (pC ++ [xp; yp; zp])
      end
  end.

(** [mapc2p_sphere_nonvectorized(grid,mC)] with [ng = (grid.ng[0], grid.ng[1])]:
    the list [pC] it returns. *)
Definition mapc2p_sphere_nonvectorized `{NumPy} (ng : Z * Z)
    (mC : (nat -> nat -> Q) * (nat -> nat -> Q)) : option (list Q) :=
  append_points (fst mC) (snd mC) (cells (fst ng) (snd ng)) [].

(** [mapc2p_sphere_vectorized(grid,mC)]: [xc = mC[0][:][:]] and
    [yc = mC[1][:][:]] are views, so the assignments [xc[ij2] = ...],
    [yc[ij2] = ...] and [xc[ij] = ...] write into the arrays of the caller.
    The result is the pair of [mC] as the call leaves it and the list
    [pC = [xp, yp, zp]] of three arrays it returns. *)
Definition mapc2p_sphere_vectorized `{NumPy}
    (mC : (nat -> nat -> Q) * (nat -> nat -> Q))
    : ((nat -> nat -> Q) * (nat -> nat -> Q)) * list (nat -> nat -> option Q) :=
  let folded i j := fold_vectorized (fst mC i j) (snd mC i j) in
  let point i j := mapc2p_sphere_vectorized_point (fst mC i j) (snd mC i j) in
  ((fun i j => fst (fst (folded i j)), fun i j => snd (fst (folded i j))),
   [fun i j => option_map (fun p => fst (fst p)) (point i j);
    fun i j => option_map (fun p => snd (fst p)) (point i j);
    fun i j => option_map (fun p => snd p) (point i j)]).

(** * Vocabulary of the properties *)

(** Two arrays with the same shape and the same entries. *)
Definition same_array {V} (q1 q2 : ndarray V) : Prop :=
  shape q1 = shape q2 /\ forall idx, item q1 idx = item q2 idx.

(** [idx] names an interior entry of an array of shape [shp] with [mbc]
    ghost cells at both ends of every grid axis (axes 1, 2, ...): along an
    axis of length [len = n + 2*mbc] these are the indices [mbc .. mbc+n-1]. *)
Definition interior (mbc : Z) (shp idx : list nat) : Prop :=
  List.length idx = List.length shp /\
  forall ax, (1 <= ax < List.length shp)%nat ->
    mbc <= Z.of_nat (nth ax idx 0%nat) /\
    Z.of_nat (nth ax idx 0%nat) + mbc < Z.of_nat (nth ax shp 0%nat).

(** [f] writes ghost entries along axis 1 only, whether it finishes or
    raises. *)
Definition ghost_only {V} (mbc : Z) (f : ndarray V -> outcome V) : Prop :=
  forall q,
    shape (final (f q)) = shape q /\
    forall s0 len srest m k rest,
      shape q = s0 :: len :: srest ->
      mbc <= Z.of_nat k -> Z.of_nat k + mbc < Z.of_nat len ->
      item (final (f q)) (m :: k :: rest) = item q (m :: k :: rest).

(** [f] leaves the interior entries alone, whether it finishes or raises. *)
Definition keeps_interior {V} (mbc : Z) (f : ndarray V -> outcome V) : Prop :=
  forall q,
    shape (final (f q)) = shape q /\
    forall idx, interior mbc (shape q) idx -> item (final (f q)) idx = item q idx.

(** A dimension whose two sides have one of the kinds 1, 2, 3. *)
Definition recognized_kinds (dim : Dimension) : Prop :=
  In (mthbc_lower dim) [1; 2; 3] /\ In (mthbc_upper dim) [1; 2; 3].

(** [k] is one of the indices [dst i], [i] in [l], along an axis of length
    [len]. *)
Definition is_dest (len : nat) (dst : Z -> Z) (l : list Z) (k : nat) : bool :=
  existsb (fun i => match norm_index len (dst i) with
                    | Some i' => Nat.eqb i' k
                    | None => false
                    end) l.

(** [f] finishes on three-axis arrays of the extents [s0], [s1], [s2] and
    writes entries of the cell [(i, j)] only. *)
Definition writes_cell (s0 s1 s2 : nat) (i j : nat) (f : ndarray Q -> outcome Q) : Prop :=
  forall q, shape q = [s0; s1; s2] ->
    exists q1, f q = Done q1 /\ shape q1 = [s0; s1; s2] /\
      forall c i' j', (i', j') <> (i, j) -> item q1 [c; i'; j'] = item q [c; i'; j'].

(** The cell centre lies in the third quadrant of the mapped plane. *)
Definition third_quadrant (p : Q * Q * Q) : Prop :=
  let '(xp, yp, _) := p in (xp <= 0)%Q /\ (yp < 0)%Q.

(** The component the solid wall negates: component 1 in one dimension, and
    in two dimensions component 1 for the dimension called [x] and component
    2 for the other one. *)
Definition normal_component {V} (grid : Grid V) (dim : Dimension) : nat :=
  if ndim grid =? 1 then 1%nat
  else if String.eqb (name dim) "x" then 1%nat else 2%nat.

(** * Concrete grids, ranks and cells *)

#[global] Instance Negate_Z : Negate Z := Z.opp.

(** A solver whose user-defined boundary conditions do nothing. *)
#[global] Instance UserBC_none : UserBC Z := {
  user_bc_lower := fun _ _ q => Done q;
  user_bc_upper := fun _ _ q => Done q
}.

(** Two components on five cells (three interior cells, one ghost cell at
    each end): entry [(m, k)] is [10*m + k + 1]. *)
Definition q_1d : ndarray Z :=
  mk_ndarray [2; 5]%nat
    (fun idx => match idx with
                | [m; k] => Z.of_nat (10 * m + k + 1)
                | _ => 0
                end).

Definition dim_wall : Dimension := mk_Dimension "x" 3 3 0 3 3.

Definition grid_1d_mbc1 : Grid Z := mk_Grid 1 1 [dim_wall] q_1d.

(** Three components on a 6 x 6 array (two ghost cells at each end of both
    axes): entry [(m, i, j)] is [100*m + 10*i + j]. *)
Definition q_2d : ndarray Z :=
  mk_ndarray [3; 6; 6]%nat
    (fun idx => match idx with
                | [m; i; j] => Z.of_nat (100 * m + 10 * i + j)
                | _ => 0
                end).

Definition dim_x : Dimension := mk_Dimension "x" 3 1 0 2 2.
Definition dim_y : Dimension := mk_Dimension "y" 1 3 0 2 2.
Definition grid_2d : Grid Z := mk_Grid 2 2 [dim_x; dim_y] q_2d.

(** A partition in the middle of the decomposition: cells 2 and 3 of 6. *)
Definition dim_inner : Dimension := mk_Dimension "x" 1 3 2 4 6.

Definition dim_periodic : Dimension := mk_Dimension "x" 2 2 0 2 2.

(** A dimension with the unknown kind 4 on both sides. *)
Definition dim_kind4 : Dimension := mk_Dimension "x" 4 4 0 2 2.

(** Four components on a 6 x 6 x 6 array: entry [(m, i, j, k)] is
    [1000*m + 100*i + 10*j + k]. *)
Definition q_3d : ndarray Z :=
  mk_ndarray [4; 6; 6; 6]%nat
    (fun idx => match idx with
                | [m; i; j; k] => Z.of_nat (1000 * m + 100 * i + 10 * j + k)
                | _ => 0
                end).

Definition grid_3d : Grid Z :=
  mk_Grid 3 2 [dim_wall; dim_wall; dim_wall] q_3d.

(** Two components on nine cells (three interior cells, three ghost cells at
    each end), filled as [q_1d]. *)
Definition q_1d_mbc3 : ndarray Z :=
  mk_ndarray [2; 9]%nat
    (fun idx => match idx with
                | [m; k] => Z.of_nat (10 * m + k + 1)
                | _ => 0
                end).

Definition grid_1d_mbc3 : Grid Z := mk_Grid 1 3 [dim_wall] q_1d_mbc3.

(** One component on six cells: a scalar problem with two ghost cells at
    each end. *)
Definition q_scalar : ndarray Z :=
  mk_ndarray [1; 6]%nat
    (fun idx => match idx with
                | [m; k] => Z.of_nat (k + 1)
                | _ => 0
                end).

Definition grid_scalar : Grid Z := mk_Grid 1 2 [dim_wall] q_scalar.

(** Zero-order extrapolation at the four edges of the 6 x 6 array. *)
Definition dim_extrap_x : Dimension := mk_Dimension "x" 1 1 0 2 2.
Definition dim_extrap_y : Dimension := mk_Dimension "y" 1 1 0 2 2.
Definition grid_extrap : Grid Z := mk_Grid 2 2 [dim_extrap_x; dim_extrap_y] q_2d.

(** A partition inside the decomposition in [x], periodic in [y]. *)
Definition grid_inner : Grid Z := mk_Grid 2 2 [dim_inner; dim_periodic] q_2d.

(** A grid whose second dimension has the unknown kind 4. *)
Definition grid_kind4 : Grid Z := mk_Grid 2 2 [dim_x; dim_kind4] q_2d.

(** Two ranks with a fixed time step, holding the cfl values 1 and 2. *)
Definition fixed_dt_ranks : list SolverState :=
  [mk_SolverState false 1; mk_SolverState false 2].

Definition variable_dt_ranks : list SolverState :=
  [mk_SolverState true 1; mk_SolverState true 2; mk_SolverState true (3 # 2)].

(** Stand-ins for numpy's functions, to run [qinit] on a concrete grid. *)
Definition NumPy_stub : NumPy := {|
  np_sqrt := fun x => x;
  np_arcsin := fun x => x;
  np_cos := fun _ => 1%Q;
  np_sin := fun _ => 0%Q;
  np_pi := (355 # 113)%Q;
  np_power := fun x _ => x
|}.

(** Two cells: the first centre in the first quadrant, the second in the
    third. *)
Definition two_centres (i j : nat) : Q * Q * Q :=
  match i with
  | O => ((1 # 2)%Q, (1 # 2)%Q, (1 # 2)%Q)
  | S _ => ((- (1 # 2))%Q, (- (1 # 2))%Q, (1 # 2)%Q)
  end.

Definition q_zero : ndarray Q := mk_ndarray [4; 2; 1]%nat (fun _ => 0%Q).

(** Two cells with their centres in the first and the second quadrant. *)
Definition upper_centres (i j : nat) : Q * Q * Q :=
  match i with
  | O => ((1 # 2)%Q, (1 # 2)%Q, (1 # 2)%Q)
  | S _ => ((- (1 # 2))%Q, (1 # 2)%Q, (1 # 2)%Q)
  end.

(** * Further vocabulary *)

(** The integers [a], [a+1], ..., [a+n-1]; [xrange w] is [zrange 0 w]. *)
Definition zrange (a n : nat) : list Z := map Z.of_nat (seq a n).

(** Every pass [i] of [l] copies between slabs that exist: the indices
    [dst i] and [src i] are in range along an axis of length [len]. *)
Definition in_range (len : nat) (dst src : Z -> Z) (l : list Z) : Prop :=
  forall i, In i l ->
    norm_index len (dst i) <> None /\ norm_index len (src i) <> None.

(** The state of cell [s] as a solid wall hands it to a ghost cell: the
    component [c] negated, the others as they are. *)
Definition wall_image {V} `{Negate V} (c : nat) (q : ndarray V) (m s : nat)
    (r : list nat) : V :=
  if Nat.eqb m c then neg (item q (c :: s :: r)) else item q (m :: s :: r).

(** The state of cell [s] handed on twice. *)
Definition wall_image_twice {V} `{Negate V} (c : nat) (q : ndarray V) (m s : nat)
    (r : list nat) : V :=
  if Nat.eqb m c then neg (neg (item q (c :: s :: r))) else item q (m :: s :: r).

(** The multi-index [l] with the entry of axis [a] replaced by [x]. *)
Definition set_axis (a x : nat) (l : list nat) : list nat :=
  insert_at a x (remove_at a l).

(** Along an axis of [len] cells with [mbc] ghost cells at each end: a lower
    ghost cell goes to the first interior cell, an upper ghost cell to the
    last one, any other index stays. *)
Definition clamp_cell (mbc : Z) (len k : nat) : nat :=
  if Z.of_nat k <? mbc then Z.to_nat mbc
  else if (Z.of_nat len - mbc <=? Z.of_nat k) && (k <? len)%nat
       then Z.to_nat (Z.of_nat len - mbc - 1)
       else k.

(** The multi-index [idx] with every grid axis clamped to the interior; the
    component (axis 0) stays. *)
Definition clamp_index (mbc : Z) (shp idx : list nat) : list nat :=
  match shp, idx with
  | _ :: lens, m :: ks =>
      m :: map (fun p => clamp_cell mbc (fst p) (snd p)) (combine lens ks)
  | _, _ => idx
  end.

(** A dimension whose two sides are physical edges with zero-order
    extrapolation. *)
Definition extrapolated (dim : Dimension) : Prop :=
  mthbc_lower dim = 1 /\ nstart dim = 0 /\
  mthbc_upper dim = 1 /\ nend dim = n dim.

(** A dimension on whose two sides the engine has nothing to fill: the side
    is periodic, or it has the kind 1 or 3 and is not a physical edge. *)
Definition nothing_to_fill (dim : Dimension) : Prop :=
  (mthbc_lower dim = 2 \/ (In (mthbc_lower dim) [1; 3] /\ nstart dim <> 0)) /\
  (mthbc_upper dim = 2 \/ (In (mthbc_upper dim) [1; 3] /\ nend dim <> n dim)).

(** A dimension with a kind that is none of 0, 1, 2, 3 on one of its sides. *)
Definition unrecognized_kind (dim : Dimension) : Prop :=
  ~ In (mthbc_lower dim) [0; 1; 2; 3] \/ ~ In (mthbc_upper dim) [0; 1; 2; 3].

(** The four components [qinit] computes for a cell with the physical
    centre [p], or the exception its longitude runs into. *)
Definition initial_state `{NumPy} (p : Q * Q * Q) : exn + Q * Q * Q * Q :=
  let '(xp, yp, zp) := p in
  let rad := Qmax (np_sqrt (xp * xp + yp * yp)) (1 # 1000000) in
  match qinit_theta xp yp zp rad with
  | inl e => inl e
  | inr theta => inr (rossby_haurwitz theta (qinit_phi zp))
  end.

(** The component [c] (0 to 3) of such a state. *)
Definition component (c : nat) (v : Q * Q * Q * Q) : Q :=
  let '(q0, q1, q2, q3) := v in
  match c with
  | 0%nat => q0
  | 1%nat => q1
  | 2%nat => q2
  | _ => q3
  end.

(** The three numbers appended for one cell. *)
Definition appended `{NumPy} (xs ys : nat -> nat -> Q) (ij : nat * nat) : list Q :=
  match mapc2p_sphere_nonvectorized_point (xs (fst ij) (snd ij)) (ys (fst ij) (snd ij)) with
  | Some (xp, yp, zp) => [xp; yp; zp]
  | None => []
  end.

(** * Properties of the boundary fill *)

Section IndexLemmas.

Lemma norm_index_nonneg (len : nat) (k : Z) :
  0 <= k < Z.of_nat len -> norm_index len k = Some (Z.to_nat k).
Proof.
  intros Hk. unfold norm_index.
  replace (0 <=? k) with true by (symmetry; apply Z.leb_le; lia).
  replace (k <? Z.of_nat len) with true by (symmetry; apply Z.ltb_lt; lia).
  reflexivity.
Qed.

Lemma norm_index_neg (len : nat) (k : Z) :
  - Z.of_nat len <= k < 0 -> norm_index len k = Some (Z.to_nat (Z.of_nat len + k)).
Proof.
  intros Hk. unfold norm_index.
  replace (0 <=? k) with false by (symmetry; apply Z.leb_gt; lia).
  replace (- Z.of_nat len <=? k) with true by (symmetry; apply Z.leb_le; lia).
  replace (k <? 0) with true by (symmetry; apply Z.ltb_lt; lia).
  reflexivity.
Qed.

Lemma norm_index_Some (len : nat) (k : Z) (j : nat) :
  norm_index len k = Some j ->
  (0 <= k /\ Z.of_nat j = k) \/ (k < 0 /\ Z.of_nat j = Z.of_nat len + k).
Proof.
  unfold norm_index.
  destruct (0 <=? k) eqn:E1; destruct (k <? Z.of_nat len) eqn:E2; simpl;
    try (destruct (- Z.of_nat len <=? k) eqn:E3; destruct (k <? 0) eqn:E4; simpl);
    intros Hj; inversion Hj; subst;
    repeat match goal with
           | E : (_ <=? _) = true |- _ => apply Z.leb_le in E
           | E : (_ <=? _) = false |- _ => apply Z.leb_gt in E
           | E : (_ <? _) = true |- _ => apply Z.ltb_lt in E
           | E : (_ <? _) = false |- _ => apply Z.ltb_ge in E
           end; lia.
Qed.

Lemma in_xrange (n i : Z) : In i (xrange n) -> 0 <= i < n.
Proof.
  unfold xrange. intros Hi. apply in_map_iff in Hi.
  destruct Hi as [j [<- Hj]]. apply in_seq in Hj. lia.
Qed.

Lemma length_remove_at {A} (k : nat) (l : list A) :
  (k < List.length l)%nat -> List.length (remove_at k l) = (List.length l - 1)%nat.
Proof.
  intros Hk. unfold remove_at.
  rewrite length_app, length_firstn, length_skipn. lia.
Qed.

Lemma nth_insert_at {A} (k : nat) (x d : A) (l : list A) :
  (k <= List.length l)%nat -> nth k (insert_at k x l) d = x.
Proof.
  intros Hk. unfold insert_at.
  rewrite app_nth2; rewrite length_firstn, Nat.min_l by lia; [|lia].
  rewrite Nat.sub_diag. reflexivity.
Qed.

Lemma remove_insert_at {A} (k : nat) (x : A) (l : list A) :
  (k <= List.length l)%nat -> remove_at k (insert_at k x l) = l.
Proof.
  revert l. induction k as [|k IH]; intros l Hk.
  - reflexivity.
  - destruct l as [|y l]; simpl in Hk; [lia|].
    unfold remove_at, insert_at in *. simpl.
    f_equal. apply IH. lia.
Qed.

Lemma insert_remove_at {A} (k : nat) (d : A) (l : list A) :
  (k < List.length l)%nat -> insert_at k (nth k l d) (remove_at k l) = l.
Proof.
  revert l. induction k as [|k IH]; intros l Hk.
  - destruct l; simpl in Hk; [lia|]. reflexivity.
  - destruct l as [|y l]; simpl in Hk; [lia|].
    unfold remove_at, insert_at in *. simpl.
    f_equal. apply IH. lia.
Qed.

Lemma move_axis_inverse (a b : nat) (l : list nat) :
  (a < List.length l)%nat -> (b < List.length l)%nat ->
  move_axis b a (move_axis a b l) = l.
Proof.
  intros Ha Hb. unfold move_axis.
  assert (Hr : (b <= List.length (remove_at a l))%nat)
    by (rewrite length_remove_at; lia).
  rewrite nth_insert_at, remove_insert_at by exact Hr.
  apply insert_remove_at. exact Ha.
Qed.

(** Rolling axis [a >= 2] to position 1 keeps the head and puts entry [a]
    second. *)
Lemma move_axis_to_1 (a : nat) (l : list nat) :
  (2 <= a < List.length l)%nat ->
  exists rest, move_axis a 1 l = nth 0 l 0%nat :: nth a l 0%nat :: rest.
Proof.
  intros Ha. destruct l as [|x l]; simpl in Ha; [lia|].
  destruct a as [|a]; [lia|].
  unfold move_axis, insert_at, remove_at. simpl.
  eexists. reflexivity.
Qed.

End IndexLemmas.

Section BoundaryFrame.

Context {V : Type} `{Negate V} `{UserBC V}.

Lemma ghost_only_copy_slab (w i s : Z) :
  0 <= i < w \/ - w <= i < 0 -> ghost_only w (copy_slab (V := V) i s).
Proof.
  intros Hi q. unfold copy_slab.
  destruct (shape q) as [|s0 [|len srest]] eqn:Hs; simpl;
    try (split; [congruence | reflexivity]).
  destruct (norm_index len s) as [s'|]; simpl;
    [|split; [congruence | reflexivity]].
  destruct (norm_index len i) as [i'|] eqn:Hn; simpl;
    [|split; [congruence | reflexivity]].
  split; [congruence|].
  intros s1 len1 srest1 m k rest Hshape Hlo Hhi.
  try rewrite Hs in Hshape. inversion Hshape; subst.
  destruct (Nat.eqb k i') eqn:E; [|reflexivity].
  apply Nat.eqb_eq in E. subst k.
  apply norm_index_Some in Hn. lia.
Qed.

Lemma ghost_only_negate_slab (w c i s : Z) :
  0 <= i < w \/ - w <= i < 0 -> ghost_only w (negate_slab (V := V) c i s).
Proof.
  intros Hi q. unfold negate_slab.
  destruct (shape q) as [|s0 [|len srest]] eqn:Hs; simpl;
    try (split; [congruence | reflexivity]).
  destruct (norm_index s0 c) as [c'|]; simpl;
    [|split; [congruence | reflexivity]].
  destruct (norm_index len s) as [s'|]; simpl;
    [|split; [congruence | reflexivity]].
  destruct (norm_index len i) as [i'|] eqn:Hn; simpl;
    [|split; [congruence | reflexivity]].
  split; [congruence|].
  intros s1 len1 srest1 m k rest Hshape Hlo Hhi.
  try rewrite Hs in Hshape. inversion Hshape; subst.
  destruct (Nat.eqb k i') eqn:E; [|rewrite andb_false_r; reflexivity].
  apply Nat.eqb_eq in E. subst k.
  apply norm_index_Some in Hn. lia.
Qed.

Lemma ghost_only_bind (w : Z) (f g : ndarray V -> outcome V) :
  ghost_only w f -> ghost_only w g -> ghost_only w (fun q => f q >>= g).
Proof.
  intros Hf Hg q. destruct (Hf q) as [Hfs Hfi].
  destruct (f q) as [q1|e q1] eqn:Efq; simpl in *.
  - destruct (Hg q1) as [Hgs Hgi]. split; [congruence|].
    intros s0 len srest m k rest Hshape Hlo Hhi.
    rewrite (Hgi s0 len srest) by (congruence || assumption).
    eapply Hfi; eassumption.
  - split; assumption.
Qed.

Lemma ghost_only_for_each (w : Z) (l : list Z) (body : Z -> ndarray V -> outcome V) :
  (forall i, In i l -> ghost_only w (body i)) -> ghost_only w (for_each l body).
Proof.
  induction l as [|i l IH]; intros Hbody.
  - intros q. simpl. split; reflexivity.
  - simpl. apply (ghost_only_bind w (body i) (for_each l body)).
    + apply Hbody. left. reflexivity.
    + apply IH. intros j Hj. apply Hbody. right. exact Hj.
Qed.

Lemma ghost_only_wall_lower (w c : Z) :
  ghost_only w (for_each (xrange w) (wall_lower_body (V := V) w c)).
Proof.
  apply ghost_only_for_each. intros i Hi. apply in_xrange in Hi.
  unfold wall_lower_body.
  apply (ghost_only_bind w (copy_slab i (w + 1 - i)) (negate_slab c i (w + 1 - i))).
  - apply ghost_only_copy_slab. lia.
  - apply ghost_only_negate_slab. lia.
Qed.

Lemma ghost_only_wall_upper (w c : Z) :
  ghost_only w (for_each (xrange w) (wall_upper_body (V := V) w c)).
Proof.
  apply ghost_only_for_each. intros i Hi. apply in_xrange in Hi.
  unfold wall_upper_body.
  apply (ghost_only_bind w (copy_slab (- i - 1) (- w - 2 + i))
           (negate_slab c (- i - 1) (- w - 2 + i))).
  - apply ghost_only_copy_slab. lia.
  - apply ghost_only_negate_slab. lia.
Qed.

Lemma final_raise_NotImplementedError (locals : list (string * pyobj V))
    (fmt x : string) (q : ndarray V) :
  final (raise_NotImplementedError locals fmt x q) = q.
Proof.
  unfold raise_NotImplementedError.
  destruct (lookup_name locals x) as [[d|g|a|]|]; reflexivity.
Qed.

Ltac ghost_trivial :=
  first [ rewrite final_raise_NotImplementedError | simpl ];
  split; [reflexivity | intros; reflexivity].

Lemma ghost_only_qbc_lower (grid : Grid V) (dim : Dimension) :
  In (mthbc_lower dim) [1; 2; 3] -> ghost_only (mbc grid) (qbc_lower grid dim).
Proof.
  intros Hk q. unfold qbc_lower.
  destruct Hk as [Hk|[Hk|[Hk|[]]]]; rewrite <- Hk; simpl.
  - destruct (nstart dim =? 0); [|ghost_trivial].
    apply ghost_only_for_each. intros i Hi. apply in_xrange in Hi.
    apply ghost_only_copy_slab. lia.
  - ghost_trivial.
  - destruct (nstart dim =? 0); [|ghost_trivial].
    destruct (ndim grid =? 1); [apply ghost_only_wall_lower|].
    destruct (ndim grid =? 2); [|ghost_trivial].
    destruct (String.eqb (name dim) "x"); apply ghost_only_wall_lower.
Qed.

Lemma ghost_only_qbc_upper (grid : Grid V) (dim : Dimension) :
  In (mthbc_upper dim) [1; 2; 3] -> ghost_only (mbc grid) (qbc_upper grid dim).
Proof.
  intros Hk q. unfold qbc_upper.
  destruct Hk as [Hk|[Hk|[Hk|[]]]]; rewrite <- Hk; simpl.
  - destruct (nend dim =? n dim); [|ghost_trivial].
    apply ghost_only_for_each. intros i Hi. apply in_xrange in Hi.
    apply ghost_only_copy_slab. lia.
  - ghost_trivial.
  - destruct (nend dim =? n dim); [|ghost_trivial].
    destruct (ndim grid =? 1); [apply ghost_only_wall_upper|].
    destruct (ndim grid =? 2); [|ghost_trivial].
    destruct (String.eqb (name dim) "x"); apply ghost_only_wall_upper.
Qed.

End BoundaryFrame.

Section BoundaryInterior.

Context {V : Type} `{Negate V} `{UserBC V}.

(** What is ghost-only on the rolled view leaves the interior of the base
    array alone. *)
Lemma keeps_interior_on_rolled (w : Z) (axis : nat) (f : ndarray V -> outcome V) :
  (1 <= axis)%nat -> ghost_only w f -> keeps_interior w (fun q => on_rolled q axis f).
Proof.
  intros Hax Hf q. unfold on_rolled, rollaxis.
  destruct (negb (axis <? List.length (shape q))%nat
            || negb (1 <=? List.length (shape q))%nat) eqn:Hguard; simpl.
  { split; reflexivity. }
  apply orb_false_elim in Hguard. destruct Hguard as [Hnd _].
  apply negb_false_iff, Nat.ltb_lt in Hnd.
  unfold write_back, roll_target.
  replace (axis <? 1)%nat with false by (symmetry; apply Nat.ltb_ge; lia).
  destruct (Nat.eqb axis 1) eqn:Eax.
  - apply Nat.eqb_eq in Eax. subst axis.
    destruct (Hf q) as [Hs Hi].
    assert (Hgoal : shape (final (f q)) = shape q /\
              forall idx, interior w (shape q) idx -> item (final (f q)) idx = item q idx).
    { split; [exact Hs|]. intros idx [Hlen Hin].
      destruct (shape q) as [|s0 [|len srest]] eqn:Hshape; simpl in Hnd; try lia.
      destruct idx as [|m [|k rest]]; simpl in Hlen; try lia.
      specialize (Hin 1%nat). simpl in Hin.
      apply (Hi s0 len srest); [reflexivity | |]; apply Hin; lia. }
    destruct (f q); simpl in *; exact Hgoal.
  - apply Nat.eqb_neq in Eax.
    set (v := mk_ndarray (move_axis axis 1 (shape q))
                (fun idx => item q (move_axis 1 axis idx))).
    destruct (Hf v) as [Hs Hi].
    assert (Hgoal : forall idx, interior w (shape q) idx ->
              item (final (f v)) (move_axis axis 1 idx) = item q idx).
    { intros idx [Hlen Hin].
      destruct (move_axis_to_1 axis (shape q)) as [srest Hshp]; [lia|].
      destruct (move_axis_to_1 axis idx) as [rest Hidx]; [lia|].
      rewrite Hidx.
      rewrite (Hi _ _ srest _ _ rest Hshp); try (apply Hin; lia).
      rewrite <- Hidx. unfold v. simpl.
      rewrite move_axis_inverse by lia. reflexivity. }
    destruct (f v); simpl in *; split; try reflexivity; exact Hgoal.
Qed.

Lemma keeps_interior_bind (w : Z) (f g : ndarray V -> outcome V) :
  keeps_interior w f -> keeps_interior w g -> keeps_interior w (fun q => f q >>= g).
Proof.
  intros Hf Hg q. destruct (Hf q) as [Hfs Hfi].
  destruct (f q) as [q1|e q1] eqn:Efq; simpl in *.
  - destruct (Hg q1) as [Hgs Hgi]. split; [congruence|].
    intros idx Hin. rewrite Hgi by (rewrite Hfs; exact Hin).
    apply Hfi. exact Hin.
  - split; assumption.
Qed.

Lemma keeps_interior_qbc_dim (grid : Grid V) (i : nat) (dim : Dimension) :
  recognized_kinds dim -> keeps_interior (mbc grid) (qbc_dim grid i dim).
Proof.
  intros [Hlo Hup]. unfold qbc_dim.
  replace (mthbc_lower dim =? 0) with false
    by (symmetry; apply Z.eqb_neq; simpl in Hlo; lia).
  replace (mthbc_upper dim =? 0) with false
    by (symmetry; apply Z.eqb_neq; simpl in Hup; lia).
  apply (keeps_interior_bind (mbc grid)
           (fun q => on_rolled q (i + 1) (qbc_lower grid dim))
           (fun q => on_rolled q (i + 1) (qbc_upper grid dim))).
  - apply keeps_interior_on_rolled; [lia|]. apply ghost_only_qbc_lower. exact Hlo.
  - apply keeps_interior_on_rolled; [lia|]. apply ghost_only_qbc_upper. exact Hup.
Qed.

Lemma keeps_interior_qbc_loop (grid : Grid V) (dims : list Dimension) :
  Forall recognized_kinds dims ->
  forall i, keeps_interior (mbc grid) (qbc_loop grid i dims).
Proof.
  induction 1 as [|dim dims Hdim Hdims IH]; intros i.
  - intros q. simpl. split; reflexivity.
  - simpl. apply (keeps_interior_bind (mbc grid) (qbc_dim grid i dim)
                    (qbc_loop grid (S i) dims)).
    + apply keeps_interior_qbc_dim. exact Hdim.
    + apply IH.
Qed.

(** C8. A boundary fill with the kinds 1, 2 or 3 writes ghost entries only:
    [qbc_lower] and [qbc_upper] leave every entry whose index along the axis
    they work on lies in [mbc .. len-mbc-1] as it was, and [qbc], run over
    all dimensions, leaves every interior entry of [grid.ghosted_q] as it
    was; this holds for the array as it stands when the fill returns and
    also when it stops with an exception. *)
Theorem fill_writes_ghost_cells_only (grid : Grid V) :
  (forall dim, In (mthbc_lower dim) [1; 2; 3] ->
     ghost_only (mbc grid) (qbc_lower grid dim)) /\
  (forall dim, In (mthbc_upper dim) [1; 2; 3] ->
     ghost_only (mbc grid) (qbc_upper grid dim)) /\
  (forall (T : Type) (t : T) (q : ndarray V),
     Forall recognized_kinds (dimensions grid) ->
     shape (final (qbc grid t q)) = shape (ghosted_q grid) /\
     forall idx, interior (mbc grid) (shape (ghosted_q grid)) idx ->
       item (final (qbc grid t q)) idx = item (ghosted_q grid) idx).
Proof.
  split; [|split].
  - intros dim Hk. apply ghost_only_qbc_lower. exact Hk.
  - intros dim Hk. apply ghost_only_qbc_upper. exact Hk.
  - intros T t q Hdims. unfold qbc.
    apply (keeps_interior_qbc_loop grid (dimensions grid) Hdims 0%nat).
Qed.

(** C5. A kind-1 or kind-3 fill on a side that is not a physical edge of the
    domain (lower side with [nstart <> 0], upper side with [nend <> n])
    returns with the array exactly as given. *)
Theorem fill_skipped_off_the_physical_edge (grid : Grid V) (dim : Dimension)
    (qbc : ndarray V) :
  (In (mthbc_lower dim) [1; 3] -> nstart dim <> 0 ->
     qbc_lower grid dim qbc = Done qbc) /\
  (In (mthbc_upper dim) [1; 3] -> nend dim <> n dim ->
     qbc_upper grid dim qbc = Done qbc).
Proof.
  split; intros Hk Hedge.
  - unfold qbc_lower. apply Z.eqb_neq in Hedge. rewrite Hedge.
    destruct Hk as [Hk|[Hk|[]]]; rewrite <- Hk; reflexivity.
  - unfold qbc_upper. apply Z.eqb_neq in Hedge. rewrite Hedge.
    destruct Hk as [Hk|[Hk|[]]]; rewrite <- Hk; reflexivity.
Qed.

(** C6. A periodic side (kind 2) is not written at all: [qbc_lower] and
    [qbc_upper] return the array exactly as given. *)
Theorem periodic_fill_is_a_no_op (grid : Grid V) (dim : Dimension) (qbc : ndarray V) :
  (mthbc_lower dim = 2 -> qbc_lower grid dim qbc = Done qbc) /\
  (mthbc_upper dim = 2 -> qbc_upper grid dim qbc = Done qbc).
Proof.
  split; intros Hk.
  - unfold qbc_lower. rewrite Hk. reflexivity.
  - unfold qbc_upper. rewrite Hk. reflexivity.
Qed.

(** The two [raise] statements name [x], which is bound nowhere. *)
Lemma raise_names_unbound_x (grid : Grid V) (dim : Dimension) (qbc : ndarray V)
    (fmt : string) :
  raise_NotImplementedError (bc_locals grid dim qbc) fmt "x" qbc
  = Raised (NameError "x") qbc.
Proof. reflexivity. Qed.

(** Had the statement named its parameter [dim], it would have raised a
    [NotImplementedError] carrying the kind: that is the error the two
    branches build. *)
Lemma raise_with_dim_names_the_kind (grid : Grid V) (dim : Dimension)
    (qbc : ndarray V) (fmt : string) :
  raise_NotImplementedError (bc_locals grid dim qbc) fmt "dim" qbc
  = Raised (NotImplementedError fmt (mthbc_lower dim)) qbc.
Proof. reflexivity. Qed.

(** C2, what the code does.  A side whose kind is none of 0, 1, 2, 3 makes
    [qbc_lower] and [qbc_upper] stop, with nothing written, in a [NameError]
    for the unbound [x] of the message: the error raised names no kind, and
    it is not the error with the kind in its message that the branch was
    building. *)
Theorem unrecognized_kind_raises_NameError (grid : Grid V) (dim : Dimension)
    (qbc : ndarray V) :
  (~ In (mthbc_lower dim) [0; 1; 2; 3] ->
     qbc_lower grid dim qbc = Raised (NameError "x") qbc) /\
  (~ In (mthbc_upper dim) [0; 1; 2; 3] ->
     qbc_upper grid dim qbc = Raised (NameError "x") qbc).
Proof.
  split; intros Hk; simpl in Hk.
  - unfold qbc_lower.
    repeat match goal with
           | |- context [mthbc_lower dim =? ?c] =>
               replace (mthbc_lower dim =? c) with false
                 by (symmetry; apply Z.eqb_neq; lia)
           end.
    apply raise_names_unbound_x.
  - unfold qbc_upper.
    repeat match goal with
           | |- context [mthbc_upper dim =? ?c] =>
               replace (mthbc_upper dim =? c) with false
                 by (symmetry; apply Z.eqb_neq; lia)
           end.
    apply raise_names_unbound_x.
Qed.

(** C7, what the code does.  A solid-wall fill (kind 3) at a physical edge of
    a grid with [ndim = 3] stops, with nothing written, in a [NameError] for
    the unbound [x] of the message, not in the [NotImplementedError] it was
    building. *)
Theorem wall_3d_raises_NameError (grid : Grid V) (dim : Dimension) (qbc : ndarray V) :
  ndim grid = 3 ->
  (mthbc_lower dim = 3 -> nstart dim = 0 ->
     qbc_lower grid dim qbc = Raised (NameError "x") qbc) /\
  (mthbc_upper dim = 3 -> nend dim = n dim ->
     qbc_upper grid dim qbc = Raised (NameError "x") qbc).
Proof.
  intros Hnd. split; intros Hk Hedge.
  - unfold qbc_lower. rewrite Hk, Hedge, Hnd. reflexivity.
  - unfold qbc_upper. rewrite Hk, Hnd. apply Z.eqb_eq in Hedge. rewrite Hedge.
    reflexivity.
Qed.

End BoundaryInterior.

Section Extrapolation.

Context {V : Type} `{Negate V} `{UserBC V}.

Lemma in_xrange_iff (w i : Z) : In i (xrange w) <-> 0 <= i < w.
Proof.
  split; [apply in_xrange|].
  intros Hi. unfold xrange. apply in_map_iff.
  exists (Z.to_nat i). split; [lia|]. apply in_seq. lia.
Qed.

(** A loop of slab copies from one source that is not itself overwritten:
    every destination ends up with the source slab of the array given, and
    nothing else changes. *)
Lemma copy_loop (dst : Z -> Z) (src : Z) (s0 len : nat) (srest : list nat) (s' : nat)
    (l : list Z) :
  norm_index len src = Some s' ->
  forall q : ndarray V,
    shape q = s0 :: len :: srest ->
    (forall i, In i l -> norm_index len (dst i) <> None) ->
    is_dest len dst l s' = false ->
    exists q',
      for_each l (fun i => copy_slab (dst i) src) q = Done q' /\
      shape q' = shape q /\
      forall idx, item q' idx =
        match idx with
        | m :: k :: r => if is_dest len dst l k then item q (m :: s' :: r) else item q idx
        | _ => item q idx
        end.
Proof.
  intros Hsrc. induction l as [|i l IH]; intros q Hs Hdef Hnd.
  - exists q. simpl. repeat split. intros [|m [|k r]]; reflexivity.
  - simpl in Hnd. apply orb_false_elim in Hnd. destruct Hnd as [Hi Hl].
    simpl for_each. unfold copy_slab at 1. rewrite Hs, Hsrc.
    destruct (norm_index len (dst i)) as [i'|] eqn:Hdi;
      [|exfalso; apply (Hdef i); [left; reflexivity | exact Hdi]].
    simpl bind.
    match goal with
    | |- context [for_each l _ ?q1] =>
        destruct (IH q1) as [q' [Hrun [Hshape Hitem]]];
        [reflexivity | intros j Hj; apply Hdef; right; exact Hj | exact Hl |]
    end.
    exists q'. split; [exact Hrun|]. split; [rewrite Hshape; simpl; congruence|].
    intros idx. rewrite Hitem. destruct idx as [|m [|k r]]; try reflexivity.
    simpl. rewrite Hdi.
    rewrite (Nat.eqb_sym s' i'), Hi.
    destruct (is_dest len dst l k); destruct (Nat.eqb i' k) eqn:Ek; simpl;
      try reflexivity.
    + rewrite (Nat.eqb_sym k i'), Ek. reflexivity.
    + rewrite (Nat.eqb_sym k i'), Ek. reflexivity.
Qed.

(** Running such a loop a second time changes nothing. *)
Lemma copy_loop_twice (dst : Z -> Z) (src : Z) (s0 len : nat) (srest : list nat)
    (s' : nat) (l : list Z) (q : ndarray V) :
  norm_index len src = Some s' ->
  shape q = s0 :: len :: srest ->
  (forall i, In i l -> norm_index len (dst i) <> None) ->
  is_dest len dst l s' = false ->
  exists q',
    for_each l (fun i => copy_slab (dst i) src) q = Done q' /\
    (forall m k r, is_dest len dst l k = true ->
       item q' (m :: k :: r) = item q (m :: s' :: r)) /\
    exists q'',
      for_each l (fun i => copy_slab (dst i) src) q' = Done q'' /\
      same_array q'' q'.
Proof.
  intros Hsrc Hs Hdef Hnd.
  destruct (copy_loop dst src s0 len srest s' l Hsrc q Hs Hdef Hnd)
    as [q' [Hrun [Hshape Hitem]]].
  exists q'. split; [exact Hrun|]. split.
  { intros m k r Hk. rewrite Hitem, Hk. reflexivity. }
  destruct (copy_loop dst src s0 len srest s' l Hsrc q'
              ltac:(congruence) Hdef Hnd) as [q'' [Hrun2 [Hshape2 Hitem2]]].
  exists q''. split; [exact Hrun2|]. split; [exact Hshape2|].
  intros idx. rewrite Hitem2. destruct idx as [|m [|k r]]; try reflexivity.
  destruct (is_dest len dst l k) eqn:Ek; [|reflexivity].
  rewrite !Hitem, Ek, Hnd. reflexivity.
Qed.

Lemma is_dest_lower (len : nat) (w : Z) (k : nat) :
  w <= Z.of_nat len ->
  is_dest len (fun i => i) (xrange w) k = true <-> Z.of_nat k < w.
Proof.
  intros Hw. unfold is_dest. rewrite existsb_exists. split.
  - intros [i [Hi Hk]]. apply in_xrange in Hi.
    rewrite norm_index_nonneg in Hk by lia.
    apply Nat.eqb_eq in Hk. lia.
  - intros Hk. exists (Z.of_nat k). split; [apply in_xrange_iff; lia|].
    rewrite norm_index_nonneg by lia. apply Nat.eqb_eq. lia.
Qed.

Lemma is_dest_upper (len : nat) (w : Z) (k : nat) :
  w <= Z.of_nat len ->
  is_dest len (fun i => - i - 1) (xrange w) k = true
  <-> Z.of_nat len - w <= Z.of_nat k < Z.of_nat len.
Proof.
  intros Hw. unfold is_dest. rewrite existsb_exists. split.
  - intros [i [Hi Hk]]. apply in_xrange in Hi.
    rewrite norm_index_neg in Hk by lia.
    apply Nat.eqb_eq in Hk. lia.
  - intros Hk. exists (Z.of_nat len - 1 - Z.of_nat k). split; [apply in_xrange_iff; lia|].
    rewrite norm_index_neg by lia. apply Nat.eqb_eq. lia.
Qed.

Lemma is_dest_false (len : nat) (dst : Z -> Z) (l : list Z) (k : nat) :
  ~ is_dest len dst l k = true -> is_dest len dst l k = false.
Proof. destruct (is_dest len dst l k); congruence. Qed.

(** C3. Zero-order extrapolation (kind 1) at a physical edge, on an array
    whose axis is longer than the ghost width: the fill returns, every lower
    ghost cell [k < mbc] holds the state vector of cell [mbc] and every upper
    ghost cell [k >= len - mbc] that of cell [len - mbc - 1], as they were in
    the array given, and a second fill returns the same array as the
    first. *)
Theorem extrapolation_copies_the_edge_cell (grid : Grid V) (dim : Dimension)
    (q : ndarray V) (s0 len : nat) (srest : list nat) :
  shape q = s0 :: len :: srest ->
  0 <= mbc grid < Z.of_nat len ->
  (mthbc_lower dim = 1 -> nstart dim = 0 ->
     exists q',
       qbc_lower grid dim q = Done q' /\
       (forall m k r, Z.of_nat k < mbc grid ->
          item q' (m :: k :: r) = item q (m :: Z.to_nat (mbc grid) :: r)) /\
       exists q'', qbc_lower grid dim q' = Done q'' /\ same_array q'' q') /\
  (mthbc_upper dim = 1 -> nend dim = n dim ->
     exists q',
       qbc_upper grid dim q = Done q' /\
       (forall m k r, Z.of_nat len - mbc grid <= Z.of_nat k < Z.of_nat len ->
          item q' (m :: k :: r)
          = item q (m :: Z.to_nat (Z.of_nat len - mbc grid - 1) :: r)) /\
       exists q'', qbc_upper grid dim q' = Done q'' /\ same_array q'' q').
Proof.
  intros Hs Hw. split; intros Hk Hedge.
  - unfold qbc_lower. rewrite Hk, Hedge. simpl.
    destruct (copy_loop_twice (fun i => i) (mbc grid) s0 len srest
                (Z.to_nat (mbc grid)) (xrange (mbc grid)) q)
      as [q' [Hrun [Hghost Hidem]]].
    + apply norm_index_nonneg. lia.
    + exact Hs.
    + intros i Hi. apply in_xrange in Hi. rewrite norm_index_nonneg by lia. discriminate.
    + apply is_dest_false. rewrite is_dest_lower by lia. lia.
    + exists q'. split; [exact Hrun|]. split; [|exact Hidem].
      intros m k r Hlt. apply Hghost. apply is_dest_lower; lia.
  - unfold qbc_upper. rewrite Hk. apply Z.eqb_eq in Hedge. rewrite Hedge. simpl.
    destruct (copy_loop_twice (fun i => - i - 1) (- mbc grid - 1) s0 len srest
                (Z.to_nat (Z.of_nat len + (- mbc grid - 1))) (xrange (mbc grid)) q)
      as [q' [Hrun [Hghost Hidem]]].
    + apply norm_index_neg. lia.
    + exact Hs.
    + intros i Hi. apply in_xrange in Hi. rewrite norm_index_neg by lia. discriminate.
    + apply is_dest_false. rewrite is_dest_upper by lia. lia.
    + exists q'. split; [exact Hrun|]. split; [|exact Hidem].
      intros m k r Hlt.
      replace (Z.of_nat len - mbc grid - 1) with (Z.of_nat len + (- mbc grid - 1)) by lia.
      apply Hghost. apply is_dest_upper; lia.
Qed.

End Extrapolation.

(** * The solid wall with two ghost cells *)

Section SolidWall.

Context {V : Type} `{Negate V} `{UserBC V}.

(** One pass of the wall loop: the slab [i'] becomes the slab [s'] with the
    component [c'] negated, whether or not the two slabs are the same. *)
Lemma wall_body_spec (c i s : Z) (q : ndarray V) (s0 len : nat) (srest : list nat)
    (c' i' s' : nat) :
  shape q = s0 :: len :: srest ->
  norm_index s0 c = Some c' ->
  norm_index len s = Some s' ->
  norm_index len i = Some i' ->
  exists q1,
    copy_slab i s q >>= negate_slab c i s = Done q1 /\
    shape q1 = s0 :: len :: srest /\
    forall m k r,
      item q1 (m :: k :: r) =
        if Nat.eqb k i'
        then (if Nat.eqb m c' then neg (item q (c' :: s' :: r))
              else item q (m :: s' :: r))
        else item q (m :: k :: r).
Proof.
  intros Hs Hc Hsrc Hdst.
  unfold copy_slab. rewrite Hs, Hsrc, Hdst. cbn [bind].
  unfold negate_slab. cbn [shape]. rewrite Hc, Hsrc, Hdst.
  eexists. split; [reflexivity|]. split; [reflexivity|].
  intros m k r. cbn [item].
  destruct (Nat.eqb k i') eqn:Ek; destruct (Nat.eqb m c') eqn:Em; cbn [andb];
    try reflexivity.
  destruct (Nat.eqb s' i'); reflexivity.
Qed.

(** With [mbc = 2] the wall fill is the reflection: on an axis of at least
    four cells the lower ghost cell [k] ([k < 2]) holds cell [3 - k] and the
    upper ghost cell [k] ([k >= len - 2]) holds cell [2*len - 5 - k], the
    component [c] negated, the others copied. *)
Lemma wall_fill_mbc2_mirrors (c : Z) (q : ndarray V) (s0 len : nat) (srest : list nat)
    (c' : nat) :
  shape q = s0 :: len :: srest ->
  norm_index s0 c = Some c' ->
  (4 <= len)%nat ->
  (exists q',
     for_each (xrange 2) (wall_lower_body 2 c) q = Done q' /\
     forall m k r, (k < 2)%nat ->
       item q' (m :: k :: r) =
         if Nat.eqb m c' then neg (item q (c' :: (3 - k)%nat :: r))
         else item q (m :: (3 - k)%nat :: r)) /\
  (exists q',
     for_each (xrange 2) (wall_upper_body 2 c) q = Done q' /\
     forall m k r, (len - 2 <= k < len)%nat ->
       item q' (m :: k :: r) =
         if Nat.eqb m c' then neg (item q (c' :: (2 * len - 5 - k)%nat :: r))
         else item q (m :: (2 * len - 5 - k)%nat :: r)).
Proof.
  intros Hs Hc Hlen. split.
  - change (xrange 2) with [0; 1]. cbn [for_each]. unfold wall_lower_body.
    destruct (wall_body_spec c 0 (2 + 1 - 0) q s0 len srest c' 0 3 Hs Hc)
      as [q1 [E1 [Hs1 Hi1]]]; try (apply norm_index_nonneg; lia).
    rewrite E1. cbn [bind].
    destruct (wall_body_spec c 1 (2 + 1 - 1) q1 s0 len srest c' 1 2 Hs1 Hc)
      as [q2 [E2 [Hs2 Hi2]]]; try (apply norm_index_nonneg; lia).
    rewrite E2. cbn [bind].
    exists q2. split; [reflexivity|].
    intros m k r Hk. rewrite Hi2.
    destruct k as [|[|k]]; [| |lia]; cbn [Nat.eqb Nat.sub]; rewrite !Hi1; reflexivity.
  - change (xrange 2) with [0; 1]. cbn [for_each]. unfold wall_upper_body.
    destruct (wall_body_spec c (- 0 - 1) (- (2) - 2 + 0) q s0 len srest c'
                (len - 1) (len - 4) Hs Hc) as [q1 [E1 [Hs1 Hi1]]];
      try (rewrite norm_index_neg by lia; f_equal; lia).
    rewrite E1. cbn [bind].
    destruct (wall_body_spec c (- (1) - 1) (- (2) - 2 + 1) q1 s0 len srest c'
                (len - 2) (len - 3) Hs1 Hc) as [q2 [E2 [Hs2 Hi2]]];
      try (rewrite norm_index_neg by lia; f_equal; lia).
    rewrite E2. cbn [bind].
    exists q2. split; [reflexivity|].
    intros m k r Hk. rewrite Hi2.
    destruct (Nat.eqb k (len - 2)) eqn:E.
    + apply Nat.eqb_eq in E. subst k.
      replace (2 * len - 5 - (len - 2))%nat with (len - 3)%nat by lia.
      rewrite !Hi1.
      replace (Nat.eqb (len - 3) (len - 1)) with false
        by (symmetry; apply Nat.eqb_neq; lia).
      reflexivity.
    + apply Nat.eqb_neq in E. assert (k = (len - 1)%nat) by lia. subst k.
      rewrite Hi1, Nat.eqb_refl.
      replace (2 * len - 5 - (len - 1))%nat with (len - 4)%nat by lia.
      reflexivity.
Qed.

(** With two ghost cells, in one and in two dimensions, the solid-wall fill
    at a physical edge is the reflection: every ghost cell holds the state of
    the interior cell at the mirrored index, the normal velocity negated and
    the other components copied. *)
Theorem wall_fill_reflects_with_two_ghost_cells (grid : Grid V) (dim : Dimension)
    (q : ndarray V) (s0 len : nat) (srest : list nat) :
  mbc grid = 2 ->
  ndim grid = 1 \/ ndim grid = 2 ->
  shape q = s0 :: len :: srest ->
  (normal_component grid dim < s0)%nat ->
  (4 <= len)%nat ->
  (mthbc_lower dim = 3 -> nstart dim = 0 ->
     exists q',
       qbc_lower grid dim q = Done q' /\
       forall m k r, (k < 2)%nat ->
         item q' (m :: k :: r) =
           if Nat.eqb m (normal_component grid dim)
           then neg (item q (normal_component grid dim :: (3 - k)%nat :: r))
           else item q (m :: (3 - k)%nat :: r)) /\
  (mthbc_upper dim = 3 -> nend dim = n dim ->
     exists q',
       qbc_upper grid dim q = Done q' /\
       forall m k r, (len - 2 <= k < len)%nat ->
         item q' (m :: k :: r) =
           if Nat.eqb m (normal_component grid dim)
           then neg (item q (normal_component grid dim :: (2 * len - 5 - k)%nat :: r))
           else item q (m :: (2 * len - 5 - k)%nat :: r)).
Proof.
  intros Hmbc Hnd Hs Hc Hlen.
  assert (Hloops :
    forall c : nat, c = normal_component grid dim ->
      norm_index s0 (Z.of_nat c) = Some c).
  { intros c ->. rewrite norm_index_nonneg by lia. f_equal. lia. }
  unfold normal_component in *.
  split; intros Hk Hedge.
  - unfold qbc_lower. rewrite Hk, Hedge, Hmbc. cbn [Z.eqb Pos.eqb].
    destruct Hnd as [Hnd|Hnd]; rewrite Hnd in *; cbn [Z.eqb Pos.eqb] in *.
    + apply (wall_fill_mbc2_mirrors 1 q s0 len srest 1 Hs (Hloops 1%nat eq_refl) Hlen).
    + destruct (String.eqb (name dim) "x").
      * apply (wall_fill_mbc2_mirrors 1 q s0 len srest 1 Hs (Hloops 1%nat eq_refl) Hlen).
      * apply (wall_fill_mbc2_mirrors 2 q s0 len srest 2 Hs (Hloops 2%nat eq_refl) Hlen).
  - unfold qbc_upper. rewrite Hk, Hmbc. apply Z.eqb_eq in Hedge. rewrite Hedge.
    cbn [Z.eqb Pos.eqb].
    destruct Hnd as [Hnd|Hnd]; rewrite Hnd in *; cbn [Z.eqb Pos.eqb] in *.
    + apply (wall_fill_mbc2_mirrors 1 q s0 len srest 1 Hs (Hloops 1%nat eq_refl) Hlen).
    + destruct (String.eqb (name dim) "x").
      * apply (wall_fill_mbc2_mirrors 1 q s0 len srest 1 Hs (Hloops 1%nat eq_refl) Hlen).
      * apply (wall_fill_mbc2_mirrors 2 q s0 len srest 2 Hs (Hloops 2%nat eq_refl) Hlen).
Qed.

End SolidWall.

(** ** The claims on the concrete grids *)

(** C1, where the code departs from it.  With one ghost cell ([mbc = 1]) the
    solid-wall fill returns, and the lower ghost cell 0 holds the state of
    cell 2 (velocity negated), not of its mirror image, cell 1; the upper
    ghost cell 4 holds the state of cell 2 as well, not of its mirror image,
    cell 3.  The source index [mbc+1-i] (and [-mbc-2+i]) is the mirror image
    [2*mbc-1-i] only for [mbc = 2]. *)
Theorem wall_fill_mbc1_misses_the_mirror :
  (exists q',
     qbc_lower grid_1d_mbc1 dim_wall q_1d = Done q' /\
     item q' [0; 0]%nat = item q_1d [0; 2]%nat /\
     item q' [1; 0]%nat = - item q_1d [1; 2]%nat /\
     item q' [0; 0]%nat <> item q_1d [0; 1]%nat /\
     item q' [1; 0]%nat <> - item q_1d [1; 1]%nat) /\
  (exists q',
     qbc_upper grid_1d_mbc1 dim_wall q_1d = Done q' /\
     item q' [0; 4]%nat = item q_1d [0; 2]%nat /\
     item q' [1; 4]%nat = - item q_1d [1; 2]%nat /\
     item q' [0; 4]%nat <> item q_1d [0; 3]%nat /\
     item q' [1; 4]%nat <> - item q_1d [1; 3]%nat).
Proof.
  split; eexists; (split; [reflexivity|]); cbv; repeat split; discriminate.
Qed.

(** With three ghost cells the fill reads ghost cells: the lower ghost cell
    2 is its own source and only has its velocity negated, so what it holds
    afterwards is not the state of its mirror image, cell 3; the ghost cells
    0 and 1 hold the cells 4 and 3, not 5 and 4. *)
Lemma wall_fill_mbc3_reads_ghost_cells :
  exists q',
    qbc_lower grid_1d_mbc3 dim_wall q_1d_mbc3 = Done q' /\
    item q' [0; 2]%nat = item q_1d_mbc3 [0; 2]%nat /\
    item q' [1; 2]%nat = - item q_1d_mbc3 [1; 2]%nat /\
    item q' [0; 2]%nat <> item q_1d_mbc3 [0; 3]%nat /\
    item q' [0; 0]%nat = item q_1d_mbc3 [0; 4]%nat /\
    item q' [0; 1]%nat = item q_1d_mbc3 [0; 3]%nat.
Proof.
  eexists; (split; [reflexivity|]); cbv; repeat split; discriminate.
Qed.

Lemma wall_fill_reflects_with_two_ghost_cells_witness :
  (exists q',
     qbc_lower grid_2d dim_x q_2d = Done q' /\
     forall m k r, (k < 2)%nat ->
       item q' (m :: k :: r) =
         if Nat.eqb m 1
         then - item q_2d (1%nat :: (3 - k)%nat :: r)
         else item q_2d (m :: (3 - k)%nat :: r)) /\
  (exists q',
     qbc_upper grid_2d dim_y q_2d = Done q' /\
     forall m k r, (6 - 2 <= k < 6)%nat ->
       item q' (m :: k :: r) =
         if Nat.eqb m 2
         then - item q_2d (2%nat :: (2 * 6 - 5 - k)%nat :: r)
         else item q_2d (m :: (2 * 6 - 5 - k)%nat :: r)).
Proof.
  destruct (wall_fill_reflects_with_two_ghost_cells grid_2d dim_x q_2d 3 6 [6%nat])
    as [Hlo _]; [reflexivity | right; reflexivity | reflexivity | unfold normal_component; simpl; lia | lia |].
  destruct (wall_fill_reflects_with_two_ghost_cells grid_2d dim_y q_2d 3 6 [6%nat])
    as [_ Hup]; [reflexivity | right; reflexivity | reflexivity | unfold normal_component; simpl; lia | lia |].
  split; [apply Hlo | apply Hup]; reflexivity.
Defined.

Lemma unrecognized_kind_raises_NameError_witness :
  qbc_lower grid_2d dim_kind4 q_2d = Raised (NameError "x") q_2d /\
  qbc_upper grid_2d dim_kind4 q_2d = Raised (NameError "x") q_2d.
Proof.
  destruct (unrecognized_kind_raises_NameError grid_2d dim_kind4 q_2d) as [Hlo Hup].
  split; [apply Hlo | apply Hup]; simpl; lia.
Defined.

Lemma extrapolation_copies_the_edge_cell_witness :
  (exists q',
     qbc_lower grid_2d dim_y q_2d = Done q' /\
     (forall m k r, Z.of_nat k < 2 ->
        item q' (m :: k :: r) = item q_2d (m :: 2%nat :: r)) /\
     exists q'', qbc_lower grid_2d dim_y q' = Done q'' /\ same_array q'' q') /\
  (exists q',
     qbc_upper grid_2d dim_x q_2d = Done q' /\
     (forall m k r, 6 - 2 <= Z.of_nat k < 6 ->
        item q' (m :: k :: r) = item q_2d (m :: 3%nat :: r)) /\
     exists q'', qbc_upper grid_2d dim_x q' = Done q'' /\ same_array q'' q').
Proof.
  destruct (extrapolation_copies_the_edge_cell grid_2d dim_y q_2d 3 6 [6%nat])
    as [Hlo _]; [reflexivity | simpl; lia |].
  destruct (extrapolation_copies_the_edge_cell grid_2d dim_x q_2d 3 6 [6%nat])
    as [_ Hup]; [reflexivity | simpl; lia |].
  split; [apply Hlo | apply Hup]; reflexivity.
Defined.

Lemma fill_skipped_off_the_physical_edge_witness :
  qbc_lower grid_2d dim_inner q_2d = Done q_2d /\
  qbc_upper grid_2d dim_inner q_2d = Done q_2d.
Proof.
  destruct (fill_skipped_off_the_physical_edge grid_2d dim_inner q_2d) as [Hlo Hup].
  split; [apply Hlo | apply Hup]; simpl; lia.
Defined.

Lemma periodic_fill_is_a_no_op_witness :
  qbc_lower grid_2d dim_periodic q_2d = Done q_2d /\
  qbc_upper grid_2d dim_periodic q_2d = Done q_2d.
Proof.
  destruct (periodic_fill_is_a_no_op grid_2d dim_periodic q_2d) as [Hlo Hup].
  split; [apply Hlo | apply Hup]; reflexivity.
Defined.

Lemma wall_3d_raises_NameError_witness :
  qbc_lower grid_3d dim_wall q_3d = Raised (NameError "x") q_3d /\
  qbc_upper grid_3d dim_wall q_3d = Raised (NameError "x") q_3d.
Proof.
  destruct (wall_3d_raises_NameError grid_3d dim_wall q_3d) as [Hlo Hup];
    [reflexivity|].
  split; [apply Hlo | apply Hup]; reflexivity.
Defined.

Lemma fill_writes_ghost_cells_only_witness :
  interior 2 [3; 6; 6]%nat [1; 2; 3]%nat /\
  item (final (qbc grid_2d tt q_2d)) [1; 2; 3]%nat = item q_2d [1; 2; 3]%nat /\
  item (final (qbc_lower grid_2d dim_x q_2d)) [1; 2; 3]%nat = item q_2d [1; 2; 3]%nat /\
  item (final (qbc_upper grid_2d dim_x q_2d)) [1; 2; 3]%nat = item q_2d [1; 2; 3]%nat.
Proof.
  assert (Hin : interior 2 [3; 6; 6]%nat [1; 2; 3]%nat).
  { split; [reflexivity|]. intros ax Hax. simpl in Hax.
    destruct ax as [|[|[|ax]]]; simpl; lia. }
  destruct (fill_writes_ghost_cells_only grid_2d) as [Hlo [Hup Hq]].
  split; [exact Hin|]. split; [|split].
  - apply (Hq unit tt q_2d); [|exact Hin].
    repeat constructor; simpl; lia.
  - apply (Hlo dim_x ltac:(simpl; lia) q_2d) with (s0 := 3%nat) (len := 6%nat) (srest := [6%nat]);
      [reflexivity | simpl; lia | simpl; lia].
  - apply (Hup dim_x ltac:(simpl; lia) q_2d) with (s0 := 3%nat) (len := 6%nat) (srest := [6%nat]);
      [reflexivity | simpl; lia | simpl; lia].
Defined.


(** * Properties of the CFL reduction *)

Section CFL.

Lemma Qmax_cases (x y : Q) : Qmax x y = x \/ Qmax x y = y.
Proof.
  unfold Qmax, GenericMinMax.gmax. destruct (x ?= y)%Q; auto.
Qed.

Lemma Allreduce_MAX_in (first : Q) (others : list Q) :
  In (Allreduce_MAX first others) (first :: others).
Proof.
  unfold Allreduce_MAX. revert first.
  induction others as [|y others IH]; intros first; simpl.
  - left. reflexivity.
  - destruct (IH (Qmax first y)) as [Hhd|Htl].
    + rewrite <- Hhd. destruct (Qmax_cases first y) as [E|E]; rewrite E; auto.
    + right. right. exact Htl.
Qed.

Lemma Allreduce_MAX_ge_first (first : Q) (others : list Q) :
  (first <= Allreduce_MAX first others)%Q.
Proof.
  unfold Allreduce_MAX. revert first.
  induction others as [|y others IH]; intros first; simpl.
  - apply Qle_refl.
  - eapply Qle_trans; [apply Q.le_max_l | apply IH].
Qed.

Lemma Allreduce_MAX_upper_bound (first : Q) (others : list Q) (x : Q) :
  In x (first :: others) -> (x <= Allreduce_MAX first others)%Q.
Proof.
  revert first. induction others as [|y others IH]; intros first Hx.
  - destruct Hx as [<-|[]]. apply Qle_refl.
  - destruct Hx as [<-|[<-|Hx]].
    + apply Allreduce_MAX_ge_first.
    + unfold Allreduce_MAX. simpl.
      eapply Qle_trans; [apply Q.le_max_r | apply (Allreduce_MAX_ge_first _ others)].
    + unfold Allreduce_MAX in *. simpl. apply IH. right. exact Hx.
Qed.

(** C4, as the code has it.  When the time step is variable on every rank
    ([dt_variable] set), [communicateCFL] returns on all ranks, every rank
    then stores the same cfl, which is the maximum of the values the ranks
    held before (one of them, and at least each of them), and so all ranks
    take the same accept decision. *)
Theorem communicateCFL_stores_the_global_maximum (r0 : SolverState)
    (rs : list SolverState) :
  forallb dt_variable (r0 :: rs) = true ->
  exists ranks' M,
    communicateCFL_world (r0 :: rs) = Some ranks' /\
    List.length ranks' = List.length (r0 :: rs) /\
    (forall s, In s ranks' -> cfl s = M) /\
    In M (map cfl (r0 :: rs)) /\
    (forall s, In s (r0 :: rs) -> (cfl s <= M)%Q) /\
    (forall cfl_max s1 s2, In s1 ranks' -> In s2 ranks' ->
       accepts cfl_max s1 = accepts cfl_max s2).
Proof.
  intros Hall.
  set (M := Allreduce_MAX (cfl r0) (map cfl rs)).
  exists (map (communicateCFL (fun _ => M)) (r0 :: rs)), M.
  assert (Hcfl : forall s, In s (map (communicateCFL (fun _ => M)) (r0 :: rs)) ->
                           cfl s = M).
  { intros s Hs. apply in_map_iff in Hs. destruct Hs as [r [<- Hr]].
    unfold communicateCFL.
    rewrite (proj1 (forallb_forall dt_variable (r0 :: rs)) Hall r Hr).
    reflexivity. }
  split; [unfold communicateCFL_world; rewrite Hall; reflexivity|].
  split; [apply length_map|].
  split; [exact Hcfl|].
  split; [apply (Allreduce_MAX_in (cfl r0) (map cfl rs))|].
  split.
  - intros s Hs. apply (Allreduce_MAX_upper_bound (cfl r0) (map cfl rs)).
    apply (in_map cfl (r0 :: rs) s Hs).
  - intros cfl_max s1 s2 H1 H2. unfold accepts.
    rewrite (Hcfl s1 H1), (Hcfl s2 H2). reflexivity.
Qed.

End CFL.

(** C4 as stated fails: with a fixed time step [communicateCFL] reduces
    nothing, each rank keeps its own cfl, the first one below the maximum,
    and the ranks decide differently against the bound 3/2. *)
Lemma fixed_dt_keeps_the_local_cfl :
  communicateCFL_world fixed_dt_ranks = Some fixed_dt_ranks /\
  map cfl fixed_dt_ranks = [1%Q; 2%Q] /\
  map (accepts (3 # 2)) fixed_dt_ranks = [true; false].
Proof. repeat split. Qed.

Lemma communicateCFL_stores_the_global_maximum_witness :
  exists ranks' M,
    communicateCFL_world variable_dt_ranks = Some ranks' /\
    List.length ranks' = List.length variable_dt_ranks /\
    (forall s, In s ranks' -> cfl s = M) /\
    In M (map cfl variable_dt_ranks) /\
    (forall s, In s variable_dt_ranks -> (cfl s <= M)%Q) /\
    (forall cfl_max s1 s2, In s1 ranks' -> In s2 ranks' ->
       accepts cfl_max s1 = accepts cfl_max s2).
Proof.
  apply (communicateCFL_stores_the_global_maximum
           (mk_SolverState true 1)
           [mk_SolverState true 2; mk_SolverState true (3 # 2)]).
  reflexivity.
Defined.

(** * Properties of the sphere application *)

Section Sphere.

Context `{NumPy}.

Lemma fdiv_positive (x y : Q) : (0 < y)%Q -> fdiv x y = Some (x / y)%Q.
Proof.
  intros Hy. unfold fdiv.
  destruct (Qeq_bool y 0) eqn:E; [|reflexivity].
  apply Qeq_bool_iff in E. rewrite E in Hy.
  exfalso. exact (Qlt_irrefl 0 Hy).
Qed.

Lemma d_nonvectorized_clamped (xc yc : Q) :
  ((1 # 10000000000) <= d_nonvectorized xc yc)%Q.
Proof.
  unfold d_nonvectorized.
  destruct (fold_nonvectorized xc yc) as [[x y] sgnz].
  apply Q.le_max_r.
Qed.

Lemma d_vectorized_clamped (xc yc : Q) :
  ((1 # 10000000000) <= d_vectorized xc yc)%Q.
Proof.
  unfold d_vectorized.
  destruct (fold_vectorized xc yc) as [[x y] sgnz].
  apply Q.le_max_r.
Qed.

Lemma clamped_positive (d : Q) : ((1 # 10000000000) <= d)%Q -> (0 < d)%Q.
Proof.
  intros Hd. eapply Qlt_le_trans; [|exact Hd]. reflexivity.
Qed.

(** C9. In both sphere mappings, for every rational point [(xc, yc)], the
    divisor [d] is at least [1e-10], hence positive and not zero, and the
    divisions [DD/d] ([D/d]) behind [xp] and [yp] are defined: the mapping
    of the point returns its three coordinates. *)
Theorem sphere_divisor_is_clamped (xc yc : Q) :
  ((1 # 10000000000) <= d_nonvectorized xc yc)%Q /\
  (0 < d_nonvectorized xc yc)%Q /\
  ~ (d_nonvectorized xc yc == 0)%Q /\
  (exists p, mapc2p_sphere_nonvectorized_point xc yc = Some p) /\
  ((1 # 10000000000) <= d_vectorized xc yc)%Q /\
  (0 < d_vectorized xc yc)%Q /\
  ~ (d_vectorized xc yc == 0)%Q /\
  (exists p, mapc2p_sphere_vectorized_point xc yc = Some p).
Proof.
  pose proof (d_nonvectorized_clamped xc yc) as Hn.
  pose proof (d_vectorized_clamped xc yc) as Hv.
  pose proof (clamped_positive _ Hn) as Hn0.
  pose proof (clamped_positive _ Hv) as Hv0.
  repeat split; try assumption.
  - intros E. rewrite E in Hn0. exact (Qlt_irrefl 0 Hn0).
  - unfold mapc2p_sphere_nonvectorized_point.
    destruct (fold_nonvectorized xc yc) as [[x y] sgnz].
    rewrite fdiv_positive by exact Hn0.
    destruct (Qle_bool (Qabs x) (Qabs y)); eexists; reflexivity.
  - intros E. rewrite E in Hv0. exact (Qlt_irrefl 0 Hv0).
  - unfold mapc2p_sphere_vectorized_point.
    destruct (fold_vectorized xc yc) as [[x y] sgnz].
    rewrite fdiv_positive by exact Hv0.
    eexists; reflexivity.
Qed.

End Sphere.

Lemma Qle_bool_false (a b : Q) : Qle_bool a b = false -> (b < a)%Q.
Proof.
  intros E. apply Qnot_le_lt. intros Hle. apply Qle_bool_iff in Hle. congruence.
Qed.

(** Turn the outcomes of the float comparisons into inequalities. *)
Ltac qle_bools :=
  repeat match goal with
         | E : Qle_bool _ _ = true |- _ => apply Qle_bool_iff in E
         | E : Qle_bool _ _ = false |- _ => apply Qle_bool_false in E
         end.

Section QInit.

Context `{NumPy}.

(** In the third quadrant the longitude needs [pi], which is bound nowhere;
    elsewhere the longitude is computed. *)
Lemma qinit_theta_third_quadrant (xp yp zp rad : Q) :
  third_quadrant (xp, yp, zp) ->
  qinit_theta xp yp zp rad = inl (NameError "pi").
Proof.
  intros [Hx Hy]. unfold qinit_theta.
  assert (E0 : Qle_bool 0 yp = false).
  { destruct (Qle_bool 0 yp) eqn:E; [|reflexivity].
    apply Qle_bool_iff in E. exfalso. exact (Qlt_not_le _ _ Hy E). }
  assert (E1 : Qle_bool xp 0 = true) by (apply Qle_bool_iff; exact Hx).
  assert (E2 : Qle_bool yp 0 = true) by (apply Qle_bool_iff, Qlt_le_weak; exact Hy).
  rewrite E0, E1, E2, !andb_false_r. reflexivity.
Qed.

Lemma qinit_theta_elsewhere (xp yp zp rad : Q) :
  ~ third_quadrant (xp, yp, zp) ->
  exists theta, qinit_theta xp yp zp rad = inr theta.
Proof.
  intros Hq. unfold qinit_theta.
  destruct (Qle_bool 0 xp) eqn:Ex0; destruct (Qle_bool 0 yp) eqn:Ey0;
    destruct (Qle_bool xp 0) eqn:Ex1; destruct (Qle_bool yp 0) eqn:Ey1;
    cbn [andb]; try (eexists; reflexivity);
    exfalso; qle_bools; first [lra | apply Hq; split; lra].
Qed.

Lemma writes_cell_set_item3 (s0 s1 s2 : nat) (c : Z) (i j : nat) (v : Q) :
  0 <= c < Z.of_nat s0 -> (i < s1)%nat -> (j < s2)%nat ->
  writes_cell s0 s1 s2 i j (set_item3 c (Z.of_nat i) (Z.of_nat j) v).
Proof.
  intros Hc Hi Hj q Hs. unfold set_item3. rewrite Hs.
  rewrite !norm_index_nonneg by lia. rewrite !Nat2Z.id.
  eexists. split; [reflexivity|]. split; [reflexivity|].
  intros c' i' j' Hne. simpl.
  destruct (Nat.eqb i' i) eqn:Ei; destruct (Nat.eqb j' j) eqn:Ej;
    rewrite ?andb_false_r; simpl; try reflexivity.
  apply Nat.eqb_eq in Ei, Ej. subst. congruence.
Qed.

Lemma writes_cell_bind (s0 s1 s2 : nat) (i j : nat) (f g : ndarray Q -> outcome Q) :
  writes_cell s0 s1 s2 i j f -> writes_cell s0 s1 s2 i j g ->
  writes_cell s0 s1 s2 i j (fun q => f q >>= g).
Proof.
  intros Hf Hg q Hs.
  destruct (Hf q Hs) as [q1 [E1 [Hs1 Hi1]]].
  destruct (Hg q1 Hs1) as [q2 [E2 [Hs2 Hi2]]].
  exists q2. rewrite E1. simpl. split; [exact E2|]. split; [exact Hs2|].
  intros c i' j' Hne. rewrite Hi2, Hi1 by exact Hne. reflexivity.
Qed.

(** A cell outside the third quadrant is initialised, and only it. *)
Lemma qinit_cell_elsewhere (p_center : nat -> nat -> Q * Q * Q) (s0 s1 s2 i j : nat) :
  (4 <= s0)%nat -> (i < s1)%nat -> (j < s2)%nat ->
  ~ third_quadrant (p_center i j) ->
  writes_cell s0 s1 s2 i j (qinit_cell p_center (i, j)).
Proof.
  intros H4 Hi Hj Hq. unfold qinit_cell.
  destruct (p_center i j) as [[xp yp] zp].
  match goal with
  | |- context [qinit_theta xp yp zp ?rad] =>
      destruct (qinit_theta_elsewhere xp yp zp rad Hq) as [theta ->]
  end.
  destruct (rossby_haurwitz theta (qinit_phi zp)) as [[[q0 q1] q2] q3].
  repeat (apply (writes_cell_bind s0 s1 s2 i j
                   (fun q => _ >>= _) (set_item3 _ _ _ _))
          || apply (writes_cell_bind s0 s1 s2 i j
                   (set_item3 _ _ _ _) (set_item3 _ _ _ _)));
    apply writes_cell_set_item3; lia.
Qed.

(** A cell in the third quadrant stops [qinit] before anything is assigned. *)
Lemma qinit_cell_third_quadrant (p_center : nat -> nat -> Q * Q * Q) (i j : nat)
    (q : ndarray Q) :
  third_quadrant (p_center i j) ->
  qinit_cell p_center (i, j) q = Raised (NameError "pi") q.
Proof.
  intros Hq. unfold qinit_cell.
  destruct (p_center i j) as [[xp yp] zp].
  rewrite qinit_theta_third_quadrant by exact Hq. reflexivity.
Qed.

Lemma third_quadrant_dec (p : Q * Q * Q) : {third_quadrant p} + {~ third_quadrant p}.
Proof.
  destruct p as [[xp yp] zp]. simpl.
  destruct (Qlt_le_dec 0 xp) as [Hx|Hx].
  - right. intros [Hx' _]. exact (Qlt_not_le _ _ Hx Hx').
  - destruct (Qlt_le_dec yp 0) as [Hy|Hy].
    + left. split; assumption.
    + right. intros [_ Hy']. exact (Qlt_not_le _ _ Hy' Hy).
Qed.

Lemma for_cells_third_quadrant (p_center : nat -> nat -> Q * Q * Q) (s0 s1 s2 : nat)
    (l : list (nat * nat)) :
  (4 <= s0)%nat ->
  (forall i j, In (i, j) l -> (i < s1)%nat /\ (j < s2)%nat) ->
  (exists i j, In (i, j) l /\ third_quadrant (p_center i j)) ->
  forall q, shape q = [s0; s1; s2] ->
    exists q',
      for_cells l (qinit_cell p_center) q = Raised (NameError "pi") q' /\
      forall c i j, third_quadrant (p_center i j) -> item q' [c; i; j] = item q [c; i; j].
Proof.
  intros H4. induction l as [|[i j] l IH]; intros Hin Hex q Hs.
  - destruct Hex as [i [j [[] _]]].
  - cbn [for_cells]. destruct (third_quadrant_dec (p_center i j)) as [Hq|Hq].
    + rewrite qinit_cell_third_quadrant by exact Hq.
      exists q. split; reflexivity.
    + destruct (Hin i j (or_introl eq_refl)) as [Hi Hj].
      destruct (qinit_cell_elsewhere p_center s0 s1 s2 i j H4 Hi Hj Hq q Hs)
        as [q1 [E1 [Hs1 Hi1]]].
      rewrite E1. cbn [bind].
      destruct (IH (fun a b Hab => Hin a b (or_intror Hab))) with (q := q1)
        as [q' [Erun Hitems]].
      * destruct Hex as [a [b [[E|Hab] Hthird]]].
        -- inversion E; subst. contradiction.
        -- exists a, b. split; assumption.
      * exact Hs1.
      * exists q'. split; [exact Erun|].
        intros c a b Hthird. rewrite (Hitems c a b Hthird).
        apply Hi1. intros E. inversion E; subst. contradiction.
Qed.

Lemma in_cells (mx my : Z) (i j : nat) :
  In (i, j) (cells mx my) <-> Z.of_nat i < mx /\ Z.of_nat j < my.
Proof.
  unfold cells. rewrite in_flat_map. split.
  - intros [a [Ha Hb]]. apply in_map_iff in Hb. destruct Hb as [b [E Hb]].
    inversion E; subst. apply in_seq in Ha, Hb. lia.
  - intros [Hi Hj]. exists i. split; [apply in_seq; lia|].
    apply in_map_iff. exists j. split; [reflexivity | apply in_seq; lia].
Qed.

(** C10. On a grid of [mx] by [my] cells that fits the array [state.q] (at
    least four components), if some cell centre lies in the third quadrant
    ([xp <= 0] and [yp < 0]) then [qinit] stops in a [NameError] for the
    name [pi], and no cell of the third quadrant has been assigned: the
    entries of [q] there are as they were. *)
Theorem qinit_third_quadrant_raises_NameError (p_center : nat -> nat -> Q * Q * Q)
    (q : ndarray Q) (mx my : Z) (s0 s1 s2 : nat) :
  shape q = [s0; s1; s2] ->
  (4 <= s0)%nat -> mx <= Z.of_nat s1 -> my <= Z.of_nat s2 ->
  (exists i j, Z.of_nat i < mx /\ Z.of_nat j < my /\ third_quadrant (p_center i j)) ->
  exists q',
    qinit p_center q mx my = Raised (NameError "pi") q' /\
    forall c i j, third_quadrant (p_center i j) -> item q' [c; i; j] = item q [c; i; j].
Proof.
  intros Hs H4 Hmx Hmy [i [j [Hi [Hj Hthird]]]]. unfold qinit.
  apply (for_cells_third_quadrant p_center s0 s1 s2 (cells mx my) H4).
  - intros a b Hab. apply in_cells in Hab. lia.
  - exists i, j. split; [apply in_cells; lia | exact Hthird].
  - exact Hs.
Qed.

End QInit.

Lemma qinit_third_quadrant_raises_NameError_witness :
  exists q',
    qinit (H := NumPy_stub) two_centres q_zero 2 1 = Raised (NameError "pi") q' /\
    forall c i j, third_quadrant (two_centres i j) ->
      item q' [c; i; j] = item q_zero [c; i; j].
Proof.
  apply (qinit_third_quadrant_raises_NameError (H := NumPy_stub)
           two_centres q_zero 2 1 4 2 1);
    [reflexivity | lia | simpl; lia | simpl; lia |].
  exists 1%nat, 0%nat. simpl. unfold Qle, Qlt. simpl. lia.
Defined.


(** * The solid wall for every number of ghost cells *)

Section WallLoops.

Context {V : Type} `{Negate V} `{UserBC V}.

Lemma for_each_app (l1 l2 : list Z) (body : Z -> ndarray V -> outcome V)
    (q : ndarray V) :
  for_each (l1 ++ l2) body q = for_each l1 body q >>= for_each l2 body.
Proof.
  revert q. induction l1 as [|i l1 IH]; intros q; simpl; [reflexivity|].
  destruct (body i q) as [q1|e q1]; simpl; [apply IH | reflexivity].
Qed.

Lemma is_dest_app (len : nat) (dst : Z -> Z) (l1 l2 : list Z) (k : nat) :
  is_dest len dst (l1 ++ l2) k = is_dest len dst l1 k || is_dest len dst l2 k.
Proof. unfold is_dest. apply existsb_app. Qed.

Lemma is_dest_false_intro (len : nat) (dst : Z -> Z) (l : list Z) (k : nat) :
  (forall i, In i l -> norm_index len (dst i) <> Some k) ->
  is_dest len dst l k = false.
Proof.
  intros Hl. apply is_dest_false. unfold is_dest. rewrite existsb_exists.
  intros [i [Hi Hk]]. apply (Hl i Hi).
  destruct (norm_index len (dst i)) as [i'|]; [|discriminate].
  apply Nat.eqb_eq in Hk. congruence.
Qed.

Lemma in_zrange (a n : nat) (x : Z) :
  In x (zrange a n) <-> exists k, x = Z.of_nat k /\ (a <= k < a + n)%nat.
Proof.
  unfold zrange. rewrite in_map_iff. split.
  - intros [k [<- Hk]]. apply in_seq in Hk. exists k. split; [reflexivity | lia].
  - intros [k [-> Hk]]. exists k. split; [reflexivity | apply in_seq; lia].
Qed.

Lemma xrange_zrange (w : Z) : xrange w = zrange 0 (Z.to_nat w).
Proof. reflexivity. Qed.

Lemma zrange_split (a n i : nat) :
  (a <= i < a + n)%nat ->
  zrange a n = zrange a (i - a) ++ Z.of_nat i :: zrange (S i) (a + n - S i).
Proof.
  intros Hi. unfold zrange.
  replace n with ((i - a) + S (a + n - S i))%nat at 1 by lia.
  rewrite seq_app, map_app. f_equal.
  replace (a + (i - a))%nat with i by lia. reflexivity.
Qed.

(** The loops of the wall fill: each pass copies the slab [src i] onto the
    slab [dst i] and negates the component [c] there. *)
Variable body : Z -> ndarray V -> outcome V.
Variables dst src : Z -> Z.
Variable c : Z.
Hypothesis body_is_wall_pass :
  forall i q, body i q = copy_slab (dst i) (src i) q >>= negate_slab c (dst i) (src i).

Variables (s0 len : nat) (srest : list nat) (c' : nat).
Hypothesis component_in_range : norm_index s0 c = Some c'.

Lemma in_range_app (l1 l2 : list Z) :
  in_range len dst src (l1 ++ l2) <-> in_range len dst src l1 /\ in_range len dst src l2.
Proof.
  unfold in_range. split.
  - intros Hl. split; intros i Hi; apply Hl, in_or_app; auto.
  - intros [H1 H2] i Hi. apply in_app_or in Hi. destruct Hi; auto.
Qed.

(** A loop whose indices are all in range finishes and touches its
    destinations only. *)
Lemma wall_loop_frame (l : list Z) :
  in_range len dst src l ->
  forall q, shape q = s0 :: len :: srest ->
    exists q',
      for_each l body q = Done q' /\
      shape q' = s0 :: len :: srest /\
      forall m k r, is_dest len dst l k = false ->
        item q' (m :: k :: r) = item q (m :: k :: r).
Proof.
  induction l as [|i l IH]; intros Hl q Hs.
  - exists q. simpl. repeat split. exact Hs.
  - destruct (Hl i (or_introl eq_refl)) as [Hd Hsrc].
    destruct (norm_index len (dst i)) as [d'|] eqn:Ed; [|congruence].
    destruct (norm_index len (src i)) as [s'|] eqn:Es; [|congruence].
    destruct (wall_body_spec c (dst i) (src i) q s0 len srest c' d' s'
                Hs component_in_range Es Ed) as [q1 [E1 [Hs1 Hi1]]].
    destruct (IH (fun j Hj => Hl j (or_intror Hj)) q1 Hs1) as [q' [E' [Hs' Hi']]].
    exists q'. simpl. rewrite body_is_wall_pass, E1. simpl.
    split; [exact E'|]. split; [exact Hs'|].
    intros m k r Hk. simpl in Hk. rewrite Ed in Hk.
    apply orb_false_elim in Hk. destruct Hk as [Hk1 Hk2].
    rewrite Hi' by exact Hk2. rewrite Hi1.
    rewrite Nat.eqb_sym, Hk1. reflexivity.
Qed.

(** The pass [i] of a loop reads a slab no earlier pass has written, and no
    later pass writes the slab it fills: that slab ends up as the wall image
    of the source slab of the array given. *)
Lemma wall_loop_at (l1 l2 : list Z) (i : Z) (d' s' : nat) :
  in_range len dst src (l1 ++ i :: l2) ->
  norm_index len (dst i) = Some d' ->
  norm_index len (src i) = Some s' ->
  is_dest len dst l1 s' = false ->
  is_dest len dst l2 d' = false ->
  forall q, shape q = s0 :: len :: srest ->
    exists q',
      for_each (l1 ++ i :: l2) body q = Done q' /\
      shape q' = s0 :: len :: srest /\
      forall m r, item q' (m :: d' :: r) = wall_image c' q m s' r.
Proof.
  intros Hl Ed Es Hfresh Hlast q Hs.
  apply in_range_app in Hl. destruct Hl as [Hl1 Hl2].
  destruct (wall_loop_frame l1 Hl1 q Hs) as [q1 [E1 [Hs1 Hi1]]].
  destruct (wall_body_spec c (dst i) (src i) q1 s0 len srest c' d' s'
              Hs1 component_in_range Es Ed) as [q2 [E2 [Hs2 Hi2]]].
  destruct (wall_loop_frame l2 (fun j Hj => Hl2 j (or_intror Hj)) q2 Hs2)
    as [q' [E' [Hs' Hi']]].
  exists q'. rewrite for_each_app, E1. simpl. rewrite body_is_wall_pass, E2. simpl.
  split; [exact E'|]. split; [exact Hs'|].
  intros m r. rewrite Hi' by exact Hlast. rewrite Hi2, Nat.eqb_refl.
  unfold wall_image. rewrite !Hi1 by exact Hfresh. reflexivity.
Qed.

(** The pass [i] reads the slab an earlier pass [j] has filled, from a slab
    that was fresh then: the slab of [i] ends up as the wall image, taken
    twice, of the source slab of [j]. *)
Lemma wall_loop_at_twice (l1 l2 l3 : list Z) (j i : Z) (dj sj di : nat) :
  in_range len dst src (l1 ++ j :: l2 ++ i :: l3) ->
  norm_index len (dst j) = Some dj ->
  norm_index len (src j) = Some sj ->
  norm_index len (dst i) = Some di ->
  norm_index len (src i) = Some dj ->
  is_dest len dst l1 sj = false ->
  is_dest len dst l2 dj = false ->
  is_dest len dst l3 di = false ->
  forall q, shape q = s0 :: len :: srest ->
    exists q',
      for_each (l1 ++ j :: l2 ++ i :: l3) body q = Done q' /\
      shape q' = s0 :: len :: srest /\
      forall m r, item q' (m :: di :: r) = wall_image_twice c' q m sj r.
Proof.
  intros Hl Edj Esj Edi Esi Hfresh Hmid Hlast q Hs.
  replace (l1 ++ j :: l2 ++ i :: l3) with ((l1 ++ j :: l2) ++ i :: l3) in *
    by (rewrite <- app_assoc; reflexivity).
  apply in_range_app in Hl. destruct Hl as [Hl12 Hl3].
  destruct (wall_loop_at l1 l2 j dj sj Hl12 Edj Esj Hfresh Hmid q Hs)
    as [qA [EA [HsA HiA]]].
  destruct (wall_loop_at [] l3 i di dj Hl3 Edi Esi eq_refl Hlast qA HsA)
    as [q' [E' [Hs' Hi']]].
  exists q'. rewrite for_each_app, EA. simpl bind.
  split; [exact E'|]. split; [exact Hs'|].
  intros m r. rewrite Hi'. unfold wall_image, wall_image_twice.
  rewrite !HiA. unfold wall_image. rewrite Nat.eqb_refl.
  destruct (Nat.eqb m c'); reflexivity.
Qed.

End WallLoops.

Section WallEveryPass.

Context {V : Type} `{Negate V} `{UserBC V}.

(** A wall loop of [W] passes whose pass [i] fills the slab [D i] from the
    slab [S' i = D (W + 1 - i)]: the first passes, up to [2*i <= W + 1], read
    slabs still untouched; each later pass reads the slab an earlier pass
    has filled from the later pass's own slab. *)
Lemma wall_loop_every_pass (body : Z -> ndarray V -> outcome V) (dst src : Z -> Z)
    (c : Z) (s0 len : nat) (srest : list nat) (c' : nat) (W : nat) (D S' : nat -> nat) :
  (forall i q, body i q = copy_slab (dst i) (src i) q >>= negate_slab c (dst i) (src i)) ->
  norm_index s0 c = Some c' ->
  (forall i, (i < W)%nat -> norm_index len (dst (Z.of_nat i)) = Some (D i)) ->
  (forall i, (i < W)%nat -> norm_index len (src (Z.of_nat i)) = Some (S' i)) ->
  (forall i, (i < W)%nat -> S' i = D (W + 1 - i)%nat) ->
  (forall i j, (i <= W + 1)%nat -> (j <= W + 1)%nat -> D i = D j -> i = j) ->
  forall q, shape q = s0 :: len :: srest ->
    exists q',
      for_each (zrange 0 W) body q = Done q' /\
      shape q' = s0 :: len :: srest /\
      forall i m r, (i < W)%nat ->
        item q' (m :: D i :: r) =
          if (2 * i <=? W + 1)%nat then wall_image c' q m (S' i) r
          else wall_image_twice c' q m (D i) r.
Proof.
  intros Hbody Hc Hdst Hsrc HS Hinj q Hs.
  assert (Hrange : in_range len dst src (zrange 0 W)).
  { intros x Hx. apply in_zrange in Hx. destruct Hx as [i [-> Hi]].
    rewrite Hdst, Hsrc by lia. split; discriminate. }
  assert (Hnot : forall a n k,
            (a + n <= W)%nat -> (forall j, (a <= j < a + n)%nat -> D j <> k) ->
            is_dest len dst (zrange a n) k = false).
  { intros a n k Han Hk. apply is_dest_false_intro.
    intros x Hx. apply in_zrange in Hx. destruct Hx as [j [-> Hj]].
    rewrite Hdst by lia. intros E. inversion E. apply (Hk j Hj). assumption. }
  destruct (wall_loop_frame body dst src c Hbody s0 len srest c' Hc
              (zrange 0 W) Hrange q Hs) as [q' [E' [Hs' _]]].
  exists q'. split; [exact E'|]. split; [exact Hs'|].
  intros i m r Hi.
  destruct (2 * i <=? W + 1)%nat eqn:Ehalf.
  - apply Nat.leb_le in Ehalf.
    pose proof (zrange_split 0 W i ltac:(lia)) as Hsplit.
    rewrite Hsplit in E', Hrange.
    destruct (wall_loop_at body dst src c Hbody s0 len srest c' Hc
                _ _ (Z.of_nat i) (D i) (S' i) Hrange
                (Hdst i Hi) (Hsrc i Hi)) with (q := q) as [q'' [E'' [_ Hi'']]].
    + apply Hnot; [lia|]. intros j Hj E. rewrite (HS i Hi) in E.
      apply Hinj in E; lia.
    + apply Hnot; [lia|]. intros j Hj E. apply Hinj in E; lia.
    + exact Hs.
    + rewrite E' in E''. inversion E''. subst q''. apply Hi''.
  - apply Nat.leb_gt in Ehalf.
    set (J := (W + 1 - i)%nat).
    assert (HJ : (2 <= J /\ J < i)%nat) by (unfold J; lia).
    pose proof (zrange_split 0 W J ltac:(lia)) as Hsplit1.
    pose proof (zrange_split (S J) (0 + W - S J) i ltac:(lia))
      as Hsplit2.
    rewrite Hsplit2 in Hsplit1. rewrite Hsplit1 in E', Hrange.
    assert (HSJ : S' J = D i).
    { rewrite HS by lia. f_equal. unfold J. lia. }
    assert (HSi : S' i = D J) by (rewrite HS by lia; reflexivity).
    destruct (wall_loop_at_twice body dst src c Hbody s0 len srest c' Hc
                _ _ _ (Z.of_nat J) (Z.of_nat i) (D J) (D i) (D i) Hrange)
      with (q := q) as [q'' [E'' [_ Hi'']]].
    + apply Hdst. lia.
    + rewrite <- HSJ. apply Hsrc. lia.
    + apply Hdst. lia.
    + rewrite <- HSi. apply Hsrc. lia.
    + apply Hnot; [lia|]. intros j Hj E. apply Hinj in E; lia.
    + apply Hnot; [lia|]. intros j Hj E. apply Hinj in E; lia.
    + apply Hnot; [lia|]. intros j Hj E. apply Hinj in E; lia.
    + exact Hs.
    + rewrite E' in E''. inversion E''. subst q''. apply Hi''.
Qed.

(** The lower wall loop for [W] ghost cells. *)
Lemma wall_lower_loop_every_width (W : nat) (c : Z) (q : ndarray V)
    (s0 len : nat) (srest : list nat) (c' : nat) :
  (W + 2 <= len)%nat ->
  norm_index s0 c = Some c' ->
  shape q = s0 :: len :: srest ->
  exists q',
    for_each (xrange (Z.of_nat W)) (wall_lower_body (Z.of_nat W) c) q = Done q' /\
    forall k m r, (k < W)%nat ->
      item q' (m :: k :: r) =
        if (2 * k <=? W + 1)%nat then wall_image c' q m (W + 1 - k) r
        else wall_image_twice c' q m k r.
Proof.
  intros Hlen Hc Hs.
  rewrite xrange_zrange, Nat2Z.id.
  destruct (wall_loop_every_pass (wall_lower_body (Z.of_nat W) c)
              (fun i => i) (fun i => Z.of_nat W + 1 - i) c s0 len srest c' W
              (fun i => i) (fun i => (W + 1 - i)%nat)) with (q := q)
    as [q' [E' [_ Hi']]]; try assumption.
  - reflexivity.
  - intros i Hi. rewrite norm_index_nonneg by lia. f_equal. lia.
  - intros i Hi. rewrite norm_index_nonneg by lia. f_equal. lia.
  - reflexivity.
  - intros i j _ _ E. exact E.
  - exists q'. split; [exact E'|]. exact Hi'.
Qed.

(** The upper wall loop for [W] ghost cells: the pass [i] fills the slab
    [len - 1 - i]. *)
Lemma wall_upper_loop_every_width (W : nat) (c : Z) (q : ndarray V)
    (s0 len : nat) (srest : list nat) (c' : nat) :
  (W + 2 <= len)%nat ->
  norm_index s0 c = Some c' ->
  shape q = s0 :: len :: srest ->
  exists q',
    for_each (xrange (Z.of_nat W)) (wall_upper_body (Z.of_nat W) c) q = Done q' /\
    forall i m r, (i < W)%nat ->
      item q' (m :: (len - 1 - i)%nat :: r) =
        if (2 * i <=? W + 1)%nat then wall_image c' q m (len - W - 2 + i) r
        else wall_image_twice c' q m (len - 1 - i) r.
Proof.
  intros Hlen Hc Hs.
  rewrite xrange_zrange, Nat2Z.id.
  destruct (wall_loop_every_pass (wall_upper_body (Z.of_nat W) c)
              (fun i => - i - 1) (fun i => - Z.of_nat W - 2 + i) c s0 len srest c' W
              (fun i => (len - 1 - i)%nat) (fun i => (len - W - 2 + i)%nat))
    with (q := q) as [q' [E' [_ Hi']]]; try assumption.
  - reflexivity.
  - intros i Hi. rewrite norm_index_neg by lia. f_equal. lia.
  - intros i Hi. rewrite norm_index_neg by lia. f_equal. lia.
  - intros i Hi. lia.
  - intros i j Hi Hj E. lia.
  - exists q'. split; [exact E'|]. exact Hi'.
Qed.

End WallEveryPass.

Section WallEveryWidth.

Context {V : Type} `{Negate V} `{UserBC V}.

Lemma norm_index_component (s0 c : nat) :
  (c < s0)%nat -> norm_index s0 (Z.of_nat c) = Some c.
Proof.
  intros Hc. rewrite norm_index_nonneg by lia. f_equal. lia.
Qed.

Lemma norm_index_beyond (len : nat) (k : Z) :
  Z.of_nat len <= k -> norm_index len k = None.
Proof.
  intros Hk. unfold norm_index.
  replace (k <? Z.of_nat len) with false by (symmetry; apply Z.ltb_ge; lia).
  replace (k <? 0) with false by (symmetry; apply Z.ltb_ge; lia).
  rewrite !andb_false_r. reflexivity.
Qed.

(** In one and two dimensions the wall loops of [qbc_lower] and [qbc_upper]
    negate the component [normal_component]. *)
Lemma qbc_lower_wall_loop (grid : Grid V) (dim : Dimension) (q : ndarray V) :
  ndim grid = 1 \/ ndim grid = 2 ->
  mthbc_lower dim = 3 -> nstart dim = 0 ->
  qbc_lower grid dim q =
  for_each (xrange (mbc grid))
    (wall_lower_body (mbc grid) (Z.of_nat (normal_component grid dim))) q.
Proof.
  intros Hnd Hk Hedge. unfold qbc_lower, normal_component.
  rewrite Hk, Hedge. cbn [Z.eqb Pos.eqb].
  destruct Hnd as [Hnd|Hnd]; rewrite Hnd; cbn [Z.eqb Pos.eqb]; [reflexivity|].
  destruct (String.eqb (name dim) "x"); reflexivity.
Qed.

Lemma qbc_upper_wall_loop (grid : Grid V) (dim : Dimension) (q : ndarray V) :
  ndim grid = 1 \/ ndim grid = 2 ->
  mthbc_upper dim = 3 -> nend dim = n dim ->
  qbc_upper grid dim q =
  for_each (xrange (mbc grid))
    (wall_upper_body (mbc grid) (Z.of_nat (normal_component grid dim))) q.
Proof.
  intros Hnd Hk Hedge. unfold qbc_upper, normal_component.
  rewrite Hk. apply Z.eqb_eq in Hedge. rewrite Hedge. cbn [Z.eqb Pos.eqb].
  destruct Hnd as [Hnd|Hnd]; rewrite Hnd; cbn [Z.eqb Pos.eqb]; [reflexivity|].
  destruct (String.eqb (name dim) "x"); reflexivity.
Qed.

(** What the solid-wall fill computes for every number [W] of ghost cells,
    in one and two dimensions, at a physical edge of an axis with at least
    two more cells than ghost cells.  Counting the ghost cells of a side from
    the edge of the array ([i = 0] is the outermost), the ghost cell [i]
    with [2*i <= W + 1] receives the wall image of the cell [W + 1 - i]
    places from the edge, as it was in the array given; every ghost cell
    further in keeps its own state with the normal velocity negated twice.
    The cell [W + 1 - i] is the mirror image [2*W - 1 - i] exactly when
    [W = 2]. *)
Theorem wall_fill_for_every_ghost_width (grid : Grid V) (dim : Dimension)
    (q : ndarray V) (s0 len : nat) (srest : list nat) (W : nat) :
  mbc grid = Z.of_nat W ->
  (W + 2 <= len)%nat ->
  ndim grid = 1 \/ ndim grid = 2 ->
  shape q = s0 :: len :: srest ->
  (normal_component grid dim < s0)%nat ->
  (mthbc_lower dim = 3 -> nstart dim = 0 ->
     exists q',
       qbc_lower grid dim q = Done q' /\
       forall i m r, (i < W)%nat ->
         item q' (m :: i :: r) =
           if (2 * i <=? W + 1)%nat
           then wall_image (normal_component grid dim) q m (W + 1 - i) r
           else wall_image_twice (normal_component grid dim) q m i r) /\
  (mthbc_upper dim = 3 -> nend dim = n dim ->
     exists q',
       qbc_upper grid dim q = Done q' /\
       forall i m r, (i < W)%nat ->
         item q' (m :: (len - 1 - i)%nat :: r) =
           if (2 * i <=? W + 1)%nat
           then wall_image (normal_component grid dim) q m (len - 1 - (W + 1 - i)) r
           else wall_image_twice (normal_component grid dim) q m (len - 1 - i) r).
Proof.
  intros Hmbc Hlen Hnd Hs Hc.
  pose proof (norm_index_component _ _ Hc) as Hc'.
  split; intros Hk Hedge.
  - rewrite qbc_lower_wall_loop, Hmbc by assumption.
    apply (wall_lower_loop_every_width W _ q s0 len srest _ Hlen Hc' Hs).
  - rewrite qbc_upper_wall_loop, Hmbc by assumption.
    destruct (wall_upper_loop_every_width W _ q s0 len srest _ Hlen Hc' Hs)
      as [q' [E' Hi']].
    exists q'. split; [exact E'|].
    intros i m r Hi. rewrite (Hi' i m r Hi).
    replace (len - 1 - (W + 1 - i))%nat with (len - W - 2 + i)%nat by lia.
    reflexivity.
Qed.

(** An array without the velocity component (fewer components than
    [normal_component + 1], a scalar problem for one) cannot take a solid
    wall: with at least one ghost cell the fill stops in an [IndexError] in
    its first pass, after the outermost ghost cell has been overwritten with
    the cell [mbc + 1] places from the edge; nothing else is written. *)
Theorem wall_fill_without_velocity_component (grid : Grid V) (dim : Dimension)
    (q : ndarray V) (s0 len : nat) (srest : list nat) (W : nat) :
  mbc grid = Z.of_nat W ->
  (1 <= W)%nat -> (W + 2 <= len)%nat ->
  ndim grid = 1 \/ ndim grid = 2 ->
  shape q = s0 :: len :: srest ->
  (s0 <= normal_component grid dim)%nat ->
  (mthbc_lower dim = 3 -> nstart dim = 0 ->
     exists q',
       qbc_lower grid dim q = Raised IndexError q' /\
       (forall m r, item q' (m :: 0%nat :: r) = item q (m :: (W + 1)%nat :: r)) /\
       (forall m k r, k <> 0%nat -> item q' (m :: k :: r) = item q (m :: k :: r))) /\
  (mthbc_upper dim = 3 -> nend dim = n dim ->
     exists q',
       qbc_upper grid dim q = Raised IndexError q' /\
       (forall m r, item q' (m :: (len - 1)%nat :: r)
                    = item q (m :: (len - W - 2)%nat :: r)) /\
       (forall m k r, k <> (len - 1)%nat ->
          item q' (m :: k :: r) = item q (m :: k :: r))).
Proof.
  intros Hmbc HW Hlen Hnd Hs Hc.
  assert (Hnone : norm_index s0 (Z.of_nat (normal_component grid dim)) = None)
    by (apply norm_index_beyond; lia).
  assert (Hx : xrange (Z.of_nat W) = 0 :: zrange 1 (W - 1)).
  { rewrite xrange_zrange, Nat2Z.id.
    rewrite (zrange_split 0 W 0) by lia. simpl.
    replace (W - 0 - 1)%nat with (W - 1)%nat by lia. reflexivity. }
  split; intros Hk Hedge.
  - rewrite qbc_lower_wall_loop, Hmbc, Hx by assumption.
    cbn [for_each]. unfold wall_lower_body, copy_slab. rewrite Hs.
    rewrite (norm_index_nonneg len (Z.of_nat W + 1 - 0)) by lia.
    rewrite (norm_index_nonneg len 0) by lia.
    cbn [bind]. unfold negate_slab. cbn [shape]. rewrite Hnone. cbn [bind].
    eexists. split; [reflexivity|]. cbn [item]. split.
    + intros m r. cbn [Z.to_nat Nat.eqb]. do 3 f_equal. lia.
    + intros m k r Hk0. cbn [Z.to_nat].
      destruct (Nat.eqb k 0) eqn:E; [apply Nat.eqb_eq in E; contradiction|].
      reflexivity.
  - rewrite qbc_upper_wall_loop, Hmbc, Hx by assumption.
    cbn [for_each]. unfold wall_upper_body, copy_slab. rewrite Hs.
    rewrite (norm_index_neg len (- Z.of_nat W - 2 + 0)) by lia.
    rewrite (norm_index_neg len (- 0 - 1)) by lia.
    cbn [bind]. unfold negate_slab. cbn [shape]. rewrite Hnone. cbn [bind].
    eexists. split; [reflexivity|]. cbn [item]. split.
    + intros m r.
      replace (Z.to_nat (Z.of_nat len + (- 0 - 1))) with (len - 1)%nat by lia.
      rewrite Nat.eqb_refl. do 3 f_equal. lia.
    + intros m k r Hk0.
      replace (Z.to_nat (Z.of_nat len + (- 0 - 1))) with (len - 1)%nat by lia.
      destruct (Nat.eqb k (len - 1)) eqn:E; [apply Nat.eqb_eq in E; contradiction|].
      reflexivity.
Qed.

End WallEveryWidth.

Lemma wall_fill_for_every_ghost_width_witness :
  (exists q',
     qbc_lower grid_1d_mbc3 dim_wall q_1d_mbc3 = Done q' /\
     forall i m r, (i < 3)%nat ->
       item q' (m :: i :: r) =
         if (2 * i <=? 3 + 1)%nat
         then wall_image 1 q_1d_mbc3 m (3 + 1 - i) r
         else wall_image_twice 1 q_1d_mbc3 m i r) /\
  (exists q',
     qbc_upper grid_1d_mbc3 dim_wall q_1d_mbc3 = Done q' /\
     forall i m r, (i < 3)%nat ->
       item q' (m :: (9 - 1 - i)%nat :: r) =
         if (2 * i <=? 3 + 1)%nat
         then wall_image 1 q_1d_mbc3 m (9 - 1 - (3 + 1 - i)) r
         else wall_image_twice 1 q_1d_mbc3 m (9 - 1 - i) r).
Proof.
  destruct (wall_fill_for_every_ghost_width grid_1d_mbc3 dim_wall q_1d_mbc3
              2 9 [] 3) as [Hlo Hup];
    [reflexivity | lia | left; reflexivity | reflexivity
    | unfold normal_component; simpl; lia |].
  split; [apply Hlo | apply Hup]; reflexivity.
Defined.

(** * The fill of all dimensions *)

Section AxisLemmas.

Lemma set_axis_cons (a x h : nat) (t : list nat) :
  set_axis (S a) x (h :: t) = h :: set_axis a x t.
Proof. reflexivity. Qed.

Lemma set_axis_same (a : nat) (l : list nat) :
  (a < List.length l)%nat -> set_axis a (nth a l 0%nat) l = l.
Proof. intros Ha. apply insert_remove_at. exact Ha. Qed.

Lemma set_axis_twice (a x y : nat) (l : list nat) :
  (a < List.length l)%nat -> set_axis a y (set_axis a x l) = set_axis a y l.
Proof.
  intros Ha. unfold set_axis at 1 3.
  unfold set_axis. rewrite remove_insert_at; [reflexivity|].
  rewrite length_remove_at by exact Ha. lia.
Qed.

Lemma length_set_axis (a x : nat) (l : list nat) :
  (a < List.length l)%nat -> List.length (set_axis a x l) = List.length l.
Proof.
  revert l. induction a as [|a IH]; intros [|h t] Ha; simpl in Ha; try lia.
  - reflexivity.
  - rewrite set_axis_cons. simpl. rewrite IH by lia. reflexivity.
Qed.

Lemma nth_set_axis_same (a x : nat) (l : list nat) :
  (a < List.length l)%nat -> nth a (set_axis a x l) 0%nat = x.
Proof.
  intros Ha. unfold set_axis. apply nth_insert_at.
  rewrite length_remove_at by exact Ha. lia.
Qed.

Lemma nth_set_axis_other (a b x : nat) (l : list nat) :
  (a < List.length l)%nat -> b <> a ->
  nth b (set_axis a x l) 0%nat = nth b l 0%nat.
Proof.
  revert l b. induction a as [|a IH]; intros [|h t] b Ha Hb; simpl in Ha; try lia.
  - destruct b as [|b]; [congruence | reflexivity].
  - rewrite set_axis_cons. destruct b as [|b]; [reflexivity|].
    simpl. apply IH; lia.
Qed.

(** Rolling the axis [a >= 2] of an index to position 1, and rolling it
    back with another entry in its place. *)
Lemma roll_and_back (a : nat) (idx : list nat) :
  (2 <= a < List.length idx)%nat ->
  exists h rest,
    move_axis a 1 idx = h :: nth a idx 0%nat :: rest /\
    forall y, move_axis 1 a (h :: y :: rest) = set_axis a y idx.
Proof.
  intros Ha. destruct idx as [|h t]; simpl in Ha; [lia|].
  destruct a as [|a]; [lia|].
  exists h, (remove_at a t). split; reflexivity.
Qed.

End AxisLemmas.

Section AllDimensions.

Context {V : Type} `{Negate V} `{UserBC V}.

(** A loop of slab copies from one source, run on the view with the axis
    [a] rolled to the front, copies along the axis [a] of the base array. *)
Lemma on_rolled_copy_loop (q : ndarray V) (a : nat) (f : ndarray V -> outcome V)
    (dst : Z -> Z) (src : Z) (l : list Z) (s' : nat) :
  (1 <= a < List.length (shape q))%nat ->
  (forall v, f v = for_each l (fun i => copy_slab (dst i) src) v) ->
  norm_index (nth a (shape q) 0%nat) src = Some s' ->
  (forall i, In i l -> norm_index (nth a (shape q) 0%nat) (dst i) <> None) ->
  is_dest (nth a (shape q) 0%nat) dst l s' = false ->
  exists q',
    on_rolled q a f = Done q' /\
    shape q' = shape q /\
    forall idx, List.length idx = List.length (shape q) ->
      item q' idx =
        if is_dest (nth a (shape q) 0%nat) dst l (nth a idx 0%nat)
        then item q (set_axis a s' idx)
        else item q idx.
Proof.
  intros Ha Hf Hsrc Hdef Hfresh.
  unfold on_rolled, rollaxis, write_back, roll_target.
  replace (a <? List.length (shape q))%nat with true
    by (symmetry; apply Nat.ltb_lt; lia).
  replace (1 <=? List.length (shape q))%nat with true
    by (symmetry; apply Nat.leb_le; lia).
  replace (a <? 1)%nat with false by (symmetry; apply Nat.ltb_ge; lia).
  cbn [negb orb].
  destruct (Nat.eqb a 1) eqn:Ea.
  - apply Nat.eqb_eq in Ea. subst a.
    destruct (shape q) as [|s0 [|len srest]] eqn:Hs; simpl in Ha; try lia.
    cbn [nth] in *.
    destruct (copy_loop dst src s0 len srest s' l Hsrc q Hs Hdef Hfresh)
      as [q1 [E1 [Hs1 Hi1]]].
    rewrite Hf, E1. exists q1. split; [reflexivity|]. split; [congruence|].
    intros idx Hlen. destruct idx as [|m [|k r]]; simpl in Hlen; try lia.
    rewrite Hi1. reflexivity.
  - apply Nat.eqb_neq in Ea.
    destruct (move_axis_to_1 a (shape q)) as [srest Hshp]; [lia|].
    set (v := mk_ndarray (move_axis a 1 (shape q))
                (fun idx => item q (move_axis 1 a idx))).
    destruct (copy_loop dst src _ _ srest s' l Hsrc v Hshp Hdef Hfresh)
      as [q1 [E1 [Hs1 Hi1]]].
    rewrite Hf, E1. eexists. split; [reflexivity|]. split; [reflexivity|].
    intros idx Hlen. cbn [item].
    destruct (roll_and_back a idx) as [h [rest [Hroll Hback]]]; [lia|].
    rewrite Hroll, Hi1. unfold v. cbn [item].
    rewrite !Hback. rewrite set_axis_same by lia. reflexivity.
Qed.

(** Zero-order extrapolation on both sides of the dimension [i] clamps the
    index of its axis. *)
Lemma qbc_dim_extrapolation (grid : Grid V) (i : nat) (dim : Dimension)
    (q : ndarray V) :
  extrapolated dim ->
  0 <= mbc grid ->
  (i + 1 < List.length (shape q))%nat ->
  2 * mbc grid < Z.of_nat (nth (i + 1) (shape q) 0%nat) ->
  exists q',
    qbc_dim grid i dim q = Done q' /\
    shape q' = shape q /\
    forall idx, List.length idx = List.length (shape q) ->
      item q' idx =
        item q (set_axis (i + 1)
                  (clamp_cell (mbc grid) (nth (i + 1) (shape q) 0%nat)
                     (nth (i + 1) idx 0%nat)) idx).
Proof.
  intros [Hlo [Hstart [Hup Hend]]] Hmbc Hax Hlen.
  set (len := nth (i + 1) (shape q) 0%nat) in *.
  unfold qbc_dim. rewrite Hlo, Hup. cbn [Z.eqb Pos.eqb].
  destruct (on_rolled_copy_loop q (i + 1) (qbc_lower grid dim)
              (fun j => j) (mbc grid) (xrange (mbc grid)) (Z.to_nat (mbc grid)))
    as [q1 [E1 [Hs1 Hi1]]].
  - lia.
  - intros v. unfold qbc_lower. rewrite Hlo, Hstart. reflexivity.
  - apply norm_index_nonneg. fold len. lia.
  - intros j Hj. apply in_xrange in Hj. fold len.
    rewrite norm_index_nonneg by lia. discriminate.
  - apply is_dest_false. fold len. rewrite is_dest_lower by lia. lia.
  - rewrite E1. cbn [bind].
    destruct (on_rolled_copy_loop q1 (i + 1) (qbc_upper grid dim)
                (fun j => - j - 1) (- mbc grid - 1) (xrange (mbc grid))
                (Z.to_nat (Z.of_nat len + (- mbc grid - 1))))
      as [q2 [E2 [Hs2 Hi2]]].
    + rewrite Hs1. lia.
    + intros v. unfold qbc_upper. rewrite Hup.
      apply Z.eqb_eq in Hend. rewrite Hend. reflexivity.
    + rewrite Hs1. fold len. apply norm_index_neg. lia.
    + intros j Hj. apply in_xrange in Hj. rewrite Hs1. fold len.
      rewrite norm_index_neg by lia. discriminate.
    + rewrite Hs1. fold len. apply is_dest_false. rewrite is_dest_upper by lia. lia.
    + exists q2. split; [exact E2|]. split; [congruence|].
      intros idx Hidx. rewrite Hi2 by congruence. rewrite Hs1. fold len.
      set (k := nth (i + 1) idx 0%nat).
      assert (Hidx' : (i + 1 < List.length idx)%nat) by lia.
      destruct (is_dest len (fun j => - j - 1) (xrange (mbc grid)) k) eqn:Eup.
      * apply is_dest_upper in Eup; [|lia].
        rewrite Hi1 by (rewrite length_set_axis; lia).
        rewrite nth_set_axis_same by lia. fold len.
        replace (is_dest len (fun j => j) (xrange (mbc grid))
                   (Z.to_nat (Z.of_nat len + (- mbc grid - 1)))) with false
          by (symmetry; apply is_dest_false; rewrite is_dest_lower by lia; lia).
        unfold clamp_cell.
        replace (Z.of_nat k <? mbc grid) with false
          by (symmetry; apply Z.ltb_ge; lia).
        replace (Z.of_nat len - mbc grid <=? Z.of_nat k) with true
          by (symmetry; apply Z.leb_le; lia).
        replace (k <? len)%nat with true by (symmetry; apply Nat.ltb_lt; lia).
        cbn [andb]. do 2 f_equal. lia.
      * rewrite Hi1 by lia. fold len. fold k.
        unfold clamp_cell.
        destruct (is_dest len (fun j => j) (xrange (mbc grid)) k) eqn:Elo.
        -- apply is_dest_lower in Elo; [|lia].
           replace (Z.of_nat k <? mbc grid) with true
             by (symmetry; apply Z.ltb_lt; lia).
           reflexivity.
        -- assert (Hk1 : ~ Z.of_nat k < mbc grid).
           { intros Hk. apply (is_dest_lower len (mbc grid) k) in Hk; [|lia].
             congruence. }
           assert (Hk2 : ~ (Z.of_nat len - mbc grid <= Z.of_nat k < Z.of_nat len)).
           { intros Hk. apply (is_dest_upper len (mbc grid) k) in Hk; [|lia].
             congruence. }
           replace (Z.of_nat k <? mbc grid) with false
             by (symmetry; apply Z.ltb_ge; lia).
           destruct ((Z.of_nat len - mbc grid <=? Z.of_nat k) && (k <? len)%nat)
             eqn:E.
           ++ apply andb_true_iff in E. destruct E as [E3 E4].
              apply Z.leb_le in E3. apply Nat.ltb_lt in E4. lia.
           ++ unfold k. rewrite set_axis_same by lia. reflexivity.
Qed.

End AllDimensions.

Section FillOfAllDimensions.

Context {V : Type} `{Negate V} `{UserBC V}.

Lemma qbc_loop_extrapolation (grid : Grid V) (dims : list Dimension) :
  0 <= mbc grid ->
  Forall extrapolated dims ->
  forall (i : nat) (q : ndarray V),
    (i + List.length dims < List.length (shape q))%nat ->
    (forall a, (i < a <= i + List.length dims)%nat ->
       2 * mbc grid < Z.of_nat (nth a (shape q) 0%nat)) ->
    exists q',
      qbc_loop grid i dims q = Done q' /\
      shape q' = shape q /\
      forall idx idx',
        List.length idx = List.length (shape q) ->
        List.length idx' = List.length (shape q) ->
        (forall a, (i < a <= i + List.length dims)%nat ->
           nth a idx' 0%nat
           = clamp_cell (mbc grid) (nth a (shape q) 0%nat) (nth a idx 0%nat)) ->
        (forall a, ~ (i < a <= i + List.length dims)%nat ->
           nth a idx' 0%nat = nth a idx 0%nat) ->
        item q' idx = item q idx'.
Proof.
  intros Hmbc Hdims. induction Hdims as [|dim dims Hdim Hdims IH];
    intros i q Hax Hlen.
  - exists q. split; [reflexivity|]. split; [reflexivity|].
    intros idx idx' Hidx Hidx' _ Hsame.
    f_equal. apply (nth_ext idx idx' 0%nat 0%nat); [congruence|].
    intros a _. symmetry. apply Hsame. simpl. lia.
  - cbn [List.length] in *. cbn [qbc_loop].
    destruct (qbc_dim_extrapolation grid i dim q Hdim Hmbc)
      as [q1 [E1 [Hs1 Hi1]]]; [lia | apply Hlen; lia |].
    rewrite E1. cbn [bind].
    destruct (IH (S i) q1) as [q' [E' [Hs' Hi']]].
    + rewrite Hs1. lia.
    + intros a Ha. rewrite Hs1. apply Hlen. lia.
    + exists q'. split; [exact E'|]. split; [congruence|].
      intros idx idx' Hidx Hidx' Hclamp Hsame.
      rewrite (Hi' idx (set_axis (i + 1) (nth (i + 1) idx 0%nat) idx')).
      * rewrite Hi1 by (rewrite length_set_axis; lia).
        rewrite nth_set_axis_same, set_axis_twice by lia.
        rewrite <- Hclamp by lia. rewrite set_axis_same by lia. reflexivity.
      * congruence.
      * rewrite length_set_axis by lia. congruence.
      * intros a Ha. rewrite nth_set_axis_other by lia.
        rewrite Hs1. apply Hclamp. lia.
      * intros a Ha. destruct (Nat.eq_dec a (i + 1)) as [->|Hne].
        -- rewrite nth_set_axis_same by lia. reflexivity.
        -- rewrite nth_set_axis_other by lia. apply Hsame. lia.
Qed.

Lemma nth_clamp_index (mbc : Z) (shp idx : list nat) (a : nat) :
  List.length idx = List.length shp -> (a < List.length shp)%nat ->
  nth a (clamp_index mbc shp idx) 0%nat =
    match a with
    | O => nth 0 idx 0%nat
    | S _ => clamp_cell mbc (nth a shp 0%nat) (nth a idx 0%nat)
    end.
Proof.
  intros Hlen Ha. destruct shp as [|s lens]; simpl in Ha; [lia|].
  destruct idx as [|m ks]; simpl in Hlen; [lia|].
  destruct a as [|a]; [reflexivity|]. cbn [clamp_index nth].
  assert (Hks : List.length ks = List.length lens) by lia.
  assert (Ha' : (a < List.length lens)%nat) by lia.
  clear Hlen Ha. revert ks a Hks Ha'.
  induction lens as [|len lens IH]; intros ks a Hks Ha; simpl in Ha; [lia|].
  destruct ks as [|k ks]; simpl in Hks; [lia|].
  destruct a as [|a]; [reflexivity|].
  simpl. apply IH; lia.
Qed.

Lemma length_clamp_index (mbc : Z) (shp idx : list nat) :
  List.length idx = List.length shp ->
  List.length (clamp_index mbc shp idx) = List.length idx.
Proof.
  intros Hlen. destruct shp as [|s lens]; [reflexivity|].
  destruct idx as [|m ks]; [reflexivity|].
  simpl in *. rewrite length_map, length_combine. lia.
Qed.

(** With zero-order extrapolation at both physical edges of every dimension
    and more than [2*mbc] cells along every grid axis, [qbc] returns, and
    every entry of the array it returns is the entry of [grid.ghosted_q] at
    the index clamped to the interior along every grid axis; the corners
    included. *)
Theorem qbc_extrapolation_clamps_every_index (grid : Grid V) (T : Type) (t : T)
    (q : ndarray V) :
  0 <= mbc grid ->
  Forall extrapolated (dimensions grid) ->
  S (List.length (dimensions grid)) = List.length (shape (ghosted_q grid)) ->
  (forall a, (1 <= a < List.length (shape (ghosted_q grid)))%nat ->
     2 * mbc grid < Z.of_nat (nth a (shape (ghosted_q grid)) 0%nat)) ->
  exists q',
    qbc grid t q = Done q' /\
    shape q' = shape (ghosted_q grid) /\
    forall idx, List.length idx = List.length (shape (ghosted_q grid)) ->
      item q' idx
      = item (ghosted_q grid) (clamp_index (mbc grid) (shape (ghosted_q grid)) idx).
Proof.
  intros Hmbc Hdims Hrank Hlen. unfold qbc.
  destruct (qbc_loop_extrapolation grid (dimensions grid) Hmbc Hdims 0%nat
              (ghosted_q grid)) as [q' [E' [Hs' Hi']]].
  - lia.
  - intros a Ha. apply Hlen. lia.
  - exists q'. split; [exact E'|]. split; [exact Hs'|].
    intros idx Hidx. apply Hi'.
    + exact Hidx.
    + rewrite length_clamp_index; assumption.
    + intros a Ha. rewrite nth_clamp_index by lia.
      destruct a as [|a]; [lia | reflexivity].
    + intros a Ha.
      destruct (Nat.lt_ge_cases a (List.length (shape (ghosted_q grid))))
        as [Hlt|Hge].
      * rewrite nth_clamp_index by lia.
        destruct a as [|a]; [reflexivity | lia].
      * rewrite !nth_overflow; [reflexivity | lia |].
        rewrite length_clamp_index; lia.
Qed.

End FillOfAllDimensions.

Section FillThatFillsNothing.

Context {V : Type} `{Negate V} `{UserBC V}.

Lemma on_rolled_untouched (q : ndarray V) (a : nat) (f : ndarray V -> outcome V) :
  (1 <= a < List.length (shape q))%nat ->
  (forall v, f v = Done v) ->
  exists q',
    on_rolled q a f = Done q' /\
    shape q' = shape q /\
    forall idx, List.length idx = List.length (shape q) -> item q' idx = item q idx.
Proof.
  intros Ha Hf.
  unfold on_rolled, rollaxis, write_back, roll_target.
  replace (a <? List.length (shape q))%nat with true
    by (symmetry; apply Nat.ltb_lt; lia).
  replace (1 <=? List.length (shape q))%nat with true
    by (symmetry; apply Nat.leb_le; lia).
  replace (a <? 1)%nat with false by (symmetry; apply Nat.ltb_ge; lia).
  cbn [negb orb].
  destruct (Nat.eqb a 1) eqn:Ea; rewrite Hf.
  - exists q. repeat split.
  - eexists. split; [reflexivity|]. split; [reflexivity|].
    intros idx Hidx. cbn [item].
    rewrite move_axis_inverse by lia. reflexivity.
Qed.

Lemma qbc_lower_nothing_to_fill (grid : Grid V) (dim : Dimension) (v : ndarray V) :
  mthbc_lower dim = 2 \/ (In (mthbc_lower dim) [1; 3] /\ nstart dim <> 0) ->
  qbc_lower grid dim v = Done v.
Proof.
  unfold qbc_lower. intros [Hk|[[Hk|[Hk|[]]] Hedge]].
  - rewrite Hk. reflexivity.
  - rewrite <- Hk. apply Z.eqb_neq in Hedge. rewrite Hedge. reflexivity.
  - rewrite <- Hk. apply Z.eqb_neq in Hedge. rewrite Hedge. reflexivity.
Qed.

Lemma qbc_upper_nothing_to_fill (grid : Grid V) (dim : Dimension) (v : ndarray V) :
  mthbc_upper dim = 2 \/ (In (mthbc_upper dim) [1; 3] /\ nend dim <> n dim) ->
  qbc_upper grid dim v = Done v.
Proof.
  unfold qbc_upper. intros [Hk|[[Hk|[Hk|[]]] Hedge]].
  - rewrite Hk. reflexivity.
  - rewrite <- Hk. apply Z.eqb_neq in Hedge. rewrite Hedge. reflexivity.
  - rewrite <- Hk. apply Z.eqb_neq in Hedge. rewrite Hedge. reflexivity.
Qed.

Lemma qbc_dim_nothing_to_fill (grid : Grid V) (i : nat) (dim : Dimension)
    (q : ndarray V) :
  nothing_to_fill dim ->
  (i + 1 < List.length (shape q))%nat ->
  exists q',
    qbc_dim grid i dim q = Done q' /\
    shape q' = shape q /\
    forall idx, List.length idx = List.length (shape q) -> item q' idx = item q idx.
Proof.
  intros [Hlo Hup] Hax. unfold qbc_dim.
  replace (mthbc_lower dim =? 0) with false
    by (symmetry; apply Z.eqb_neq; simpl in Hlo; lia).
  replace (mthbc_upper dim =? 0) with false
    by (symmetry; apply Z.eqb_neq; simpl in Hup; lia).
  destruct (on_rolled_untouched q (i + 1) (qbc_lower grid dim))
    as [q1 [E1 [Hs1 Hi1]]];
    [lia | intros v; apply qbc_lower_nothing_to_fill; exact Hlo |].
  rewrite E1. cbn [bind].
  destruct (on_rolled_untouched q1 (i + 1) (qbc_upper grid dim))
    as [q2 [E2 [Hs2 Hi2]]];
    [rewrite Hs1; lia | intros v; apply qbc_upper_nothing_to_fill; exact Hup |].
  exists q2. split; [exact E2|]. split; [congruence|].
  intros idx Hidx. rewrite Hi2, Hi1 by congruence. reflexivity.
Qed.

Lemma qbc_loop_nothing_to_fill (grid : Grid V) (dims : list Dimension) :
  Forall nothing_to_fill dims ->
  forall (i : nat) (q : ndarray V),
    (i + List.length dims < List.length (shape q))%nat ->
    exists q',
      qbc_loop grid i dims q = Done q' /\
      shape q' = shape q /\
      forall idx, List.length idx = List.length (shape q) -> item q' idx = item q idx.
Proof.
  induction 1 as [|dim dims Hdim Hdims IH]; intros i q Hax.
  - exists q. repeat split.
  - cbn [List.length] in Hax. cbn [qbc_loop].
    destruct (qbc_dim_nothing_to_fill grid i dim q Hdim)
      as [q1 [E1 [Hs1 Hi1]]]; [lia|].
    rewrite E1. cbn [bind].
    destruct (IH (S i) q1) as [q' [E' [Hs' Hi']]]; [rewrite Hs1; lia|].
    exists q'. split; [exact E'|]. split; [congruence|].
    intros idx Hidx. rewrite Hi', Hi1 by congruence. reflexivity.
Qed.

(** When no side of any dimension is for the engine to fill (each is
    periodic, or of kind 1 or 3 off the physical edge), [qbc] returns the
    ghosted array with every entry as it was. *)
Theorem qbc_fills_nothing_inside_the_decomposition (grid : Grid V) (T : Type) (t : T)
    (q : ndarray V) :
  Forall nothing_to_fill (dimensions grid) ->
  (List.length (dimensions grid) < List.length (shape (ghosted_q grid)))%nat ->
  exists q',
    qbc grid t q = Done q' /\
    shape q' = shape (ghosted_q grid) /\
    forall idx, List.length idx = List.length (shape (ghosted_q grid)) ->
      item q' idx = item (ghosted_q grid) idx.
Proof.
  intros Hdims Hax. unfold qbc.
  apply (qbc_loop_nothing_to_fill grid (dimensions grid) Hdims 0%nat). lia.
Qed.

Lemma on_rolled_raises (q : ndarray V) (a : nat) (f : ndarray V -> outcome V) :
  (forall v, exists e, f v = Raised e v) ->
  exists e q', on_rolled q a f = Raised e q'.
Proof.
  intros Hf. unfold on_rolled.
  destruct (rollaxis q a 1) as [v|]; [|eexists; eexists; reflexivity].
  destruct (Hf v) as [e ->]. eexists. eexists. reflexivity.
Qed.

Lemma qbc_lower_unrecognized (grid : Grid V) (dim : Dimension) (v : ndarray V) :
  ~ In (mthbc_lower dim) [0; 1; 2; 3] ->
  qbc_lower grid dim v = Raised (NameError "x") v.
Proof.
  intros Hk. simpl in Hk. unfold qbc_lower.
  repeat match goal with
         | |- context [mthbc_lower dim =? ?k] =>
             replace (mthbc_lower dim =? k) with false
               by (symmetry; apply Z.eqb_neq; lia)
         end.
  reflexivity.
Qed.

Lemma qbc_upper_unrecognized (grid : Grid V) (dim : Dimension) (v : ndarray V) :
  ~ In (mthbc_upper dim) [0; 1; 2; 3] ->
  qbc_upper grid dim v = Raised (NameError "x") v.
Proof.
  intros Hk. simpl in Hk. unfold qbc_upper.
  repeat match goal with
         | |- context [mthbc_upper dim =? ?k] =>
             replace (mthbc_upper dim =? k) with false
               by (symmetry; apply Z.eqb_neq; lia)
         end.
  reflexivity.
Qed.

Lemma qbc_dim_unrecognized (grid : Grid V) (i : nat) (dim : Dimension)
    (q : ndarray V) :
  unrecognized_kind dim -> exists e q', qbc_dim grid i dim q = Raised e q'.
Proof.
  intros [Hlo|Hup]; unfold qbc_dim.
  - replace (mthbc_lower dim =? 0) with false
      by (symmetry; apply Z.eqb_neq; simpl in Hlo; lia).
    destruct (on_rolled_raises q (i + 1) (qbc_lower grid dim)) as [e [q' ->]].
    + intros v. eexists. apply qbc_lower_unrecognized. exact Hlo.
    + exists e, q'. reflexivity.
  - match goal with |- context [?lower >>= _] => destruct lower as [q1|e q1] end;
      [|exists e, q1; reflexivity].
    cbn [bind].
    replace (mthbc_upper dim =? 0) with false
      by (symmetry; apply Z.eqb_neq; simpl in Hup; lia).
    apply on_rolled_raises.
    intros v. eexists. apply qbc_upper_unrecognized. exact Hup.
Qed.

(** [qbc] never returns when a side of some dimension has a kind that is
    none of 0, 1, 2, 3: it stops with an exception, at that dimension or
    before it. *)
Theorem qbc_stops_at_an_unrecognized_kind (grid : Grid V) (T : Type) (t : T)
    (q : ndarray V) :
  Exists unrecognized_kind (dimensions grid) ->
  exists e q', qbc grid t q = Raised e q'.
Proof.
  intros Hdims. unfold qbc.
  generalize (ghosted_q grid) as q0. generalize 0%nat as i.
  induction Hdims as [dim dims Hdim|dim dims Hdims IH]; intros i q0; cbn [qbc_loop].
  - destruct (qbc_dim_unrecognized grid i dim q0 Hdim) as [e [q' ->]].
    exists e, q'. reflexivity.
  - destruct (qbc_dim grid i dim q0) as [q1|e q1]; [|exists e, q1; reflexivity].
    cbn [bind]. apply IH.
Qed.

End FillThatFillsNothing.

Lemma wall_fill_without_velocity_component_witness :
  (exists q',
     qbc_lower grid_scalar dim_wall q_scalar = Raised IndexError q' /\
     (forall m r, item q' (m :: 0%nat :: r) = item q_scalar (m :: (2 + 1)%nat :: r)) /\
     (forall m k r, k <> 0%nat -> item q' (m :: k :: r) = item q_scalar (m :: k :: r))) /\
  (exists q',
     qbc_upper grid_scalar dim_wall q_scalar = Raised IndexError q' /\
     (forall m r, item q' (m :: (6 - 1)%nat :: r)
                  = item q_scalar (m :: (6 - 2 - 2)%nat :: r)) /\
     (forall m k r, k <> (6 - 1)%nat ->
        item q' (m :: k :: r) = item q_scalar (m :: k :: r))).
Proof.
  destruct (wall_fill_without_velocity_component grid_scalar dim_wall q_scalar
              1 6 [] 2) as [Hlo Hup];
    [reflexivity | lia | lia | left; reflexivity | reflexivity
    | unfold normal_component; simpl; lia |].
  split; [apply Hlo | apply Hup]; reflexivity.
Defined.

Lemma qbc_extrapolation_clamps_every_index_witness :
  exists q',
    qbc grid_extrap tt q_2d = Done q' /\
    shape q' = [3; 6; 6]%nat /\
    forall idx, List.length idx = 3%nat ->
      item q' idx = item q_2d (clamp_index 2 [3; 6; 6]%nat idx).
Proof.
  apply (qbc_extrapolation_clamps_every_index grid_extrap unit tt q_2d).
  - simpl. lia.
  - repeat constructor.
  - reflexivity.
  - intros a Ha. simpl in Ha. destruct a as [|[|[|a]]]; simpl; lia.
Defined.

Lemma qbc_fills_nothing_inside_the_decomposition_witness :
  exists q',
    qbc grid_inner tt q_2d = Done q' /\
    shape q' = [3; 6; 6]%nat /\
    forall idx, List.length idx = 3%nat -> item q' idx = item q_2d idx.
Proof.
  apply (qbc_fills_nothing_inside_the_decomposition grid_inner unit tt q_2d).
  - apply Forall_cons; [|apply Forall_cons; [|apply Forall_nil]].
    + split; right; simpl; lia.
    + split; left; reflexivity.
  - simpl. lia.
Defined.

Lemma qbc_stops_at_an_unrecognized_kind_witness :
  exists e q', qbc grid_kind4 tt q_2d = Raised e q'.
Proof.
  apply (qbc_stops_at_an_unrecognized_kind grid_kind4 unit tt q_2d).
  apply Exists_cons_tl, Exists_cons_hd. left. simpl. lia.
Defined.

(** * More on the CFL reduction *)

Section CFLAgain.

Lemma Qmax_same (x : Q) : Qmax x x = x.
Proof. destruct (Qmax_cases x x); assumption. Qed.

Lemma Allreduce_MAX_of_equals (M : Q) (others : list Q) :
  (forall x, In x others -> x = M) -> Allreduce_MAX M others = M.
Proof.
  unfold Allreduce_MAX. induction others as [|y others IH]; intros Hall.
  - reflexivity.
  - simpl. rewrite (Hall y (or_introl eq_refl)), Qmax_same.
    apply IH. intros x Hx. apply Hall. right. exact Hx.
Qed.

Lemma communicateCFL_fixed (ranks : list SolverState) :
  existsb dt_variable ranks = false ->
  map (communicateCFL (fun send => send)) ranks = ranks.
Proof.
  induction ranks as [|r rs IH]; intros Hnone; [reflexivity|].
  simpl in Hnone. apply orb_false_elim in Hnone. destruct Hnone as [Hr Hrs].
  simpl. rewrite IH by exact Hrs. unfold communicateCFL. rewrite Hr. reflexivity.
Qed.

Lemma communicateCFL_reduced_monotone (M : Q) (l : list SolverState) :
  (forall r, In r l -> (cfl r <= M)%Q) ->
  Forall2 (fun r r' => dt_variable r' = dt_variable r /\ (cfl r <= cfl r')%Q)
    l (map (communicateCFL (fun _ => M)) l).
Proof.
  induction l as [|r l IH]; intros Hbound; simpl; constructor.
  - unfold communicateCFL. destruct (dt_variable r) eqn:Er; simpl.
    + split; [reflexivity | apply Hbound; left; reflexivity].
    + split; [exact Er | apply Qle_refl].
  - apply IH. intros x Hx. apply Hbound. right. exact Hx.
Qed.

Lemma Forall2_same_rank (l : list SolverState) :
  Forall2 (fun r r' => dt_variable r' = dt_variable r /\ (cfl r <= cfl r')%Q) l l.
Proof.
  induction l as [|r l IH]; constructor; [|exact IH].
  split; [reflexivity | apply Qle_refl].
Qed.

(** Whenever [communicateCFL] returns on all ranks, it has kept every rank's
    [dt_variable] and has lowered no rank's cfl: a rank holds its own value
    or a larger one. *)
Theorem communicateCFL_never_lowers_a_cfl (ranks ranks' : list SolverState) :
  communicateCFL_world ranks = Some ranks' ->
  Forall2 (fun r r' => dt_variable r' = dt_variable r /\ (cfl r <= cfl r')%Q)
    ranks ranks'.
Proof.
  unfold communicateCFL_world. destruct ranks as [|r0 rs].
  - intros E. inversion E. constructor.
  - destruct (forallb dt_variable (r0 :: rs)) eqn:Hall.
    + intros E.
      replace ranks' with (map (communicateCFL
                                 (fun _ => Allreduce_MAX (cfl r0) (map cfl rs)))
                             (r0 :: rs)) by congruence.
      apply (communicateCFL_reduced_monotone
               (Allreduce_MAX (cfl r0) (map cfl rs)) (r0 :: rs)).
      intros r Hr. apply Allreduce_MAX_upper_bound.
      apply (in_map cfl (r0 :: rs) r Hr).
    + destruct (existsb dt_variable (r0 :: rs)) eqn:Hsome; [discriminate|].
      intros E.
      replace ranks' with (map (communicateCFL (fun send => send)) (r0 :: rs))
        by congruence.
      rewrite communicateCFL_fixed by exact Hsome.
      apply Forall2_same_rank.
Qed.

(** A second [communicateCFL] changes nothing: the ranks it returns on hold
    after it what they held after the first. *)
Theorem communicateCFL_twice (ranks ranks' : list SolverState) :
  communicateCFL_world ranks = Some ranks' ->
  communicateCFL_world ranks' = Some ranks'.
Proof.
  unfold communicateCFL_world at 1. destruct ranks as [|r0 rs].
  - intros E. inversion E. reflexivity.
  - destruct (forallb dt_variable (r0 :: rs)) eqn:Hall.
    + intros E.
      replace ranks' with (map (communicateCFL
                                 (fun _ => Allreduce_MAX (cfl r0) (map cfl rs)))
                             (r0 :: rs)) by congruence.
      set (M := Allreduce_MAX (cfl r0) (map cfl rs)).
      assert (Hshape : forall l, forallb dt_variable l = true ->
                map (communicateCFL (fun _ => M)) l
                = map (fun r => mk_SolverState true M) l).
      { intros l Hl. apply map_ext_in. intros r Hr. unfold communicateCFL.
        rewrite (proj1 (forallb_forall dt_variable l) Hl r Hr). reflexivity. }
      rewrite (Hshape (r0 :: rs) Hall).
      cbn [map]. unfold communicateCFL_world.
      assert (Hmax : Allreduce_MAX (cfl (mk_SolverState true M))
                       (map cfl (map (fun _ : SolverState => mk_SolverState true M) rs))
                     = M).
      { apply Allreduce_MAX_of_equals. intros x Hx.
        apply in_map_iff in Hx. destruct Hx as [r [<- Hr]].
        apply in_map_iff in Hr. destruct Hr as [r1 [<- _]]. reflexivity. }
      assert (Hvar : forallb dt_variable
                       (mk_SolverState true M
                        :: map (fun _ : SolverState => mk_SolverState true M) rs) = true).
      { apply forallb_forall. intros r [<-|Hr]; [reflexivity|].
        apply in_map_iff in Hr. destruct Hr as [r1 [<- _]]. reflexivity. }
      rewrite Hvar, Hmax. f_equal.
      rewrite (Hshape (mk_SolverState true M
                       :: map (fun _ : SolverState => mk_SolverState true M) rs) Hvar).
      cbn [map]. rewrite map_map. reflexivity.
    + destruct (existsb dt_variable (r0 :: rs)) eqn:Hsome; [discriminate|].
      intros E.
      replace ranks' with (map (communicateCFL (fun send => send)) (r0 :: rs))
        by congruence.
      rewrite communicateCFL_fixed by exact Hsome.
      unfold communicateCFL_world. rewrite Hall, Hsome.
      rewrite communicateCFL_fixed by exact Hsome. reflexivity.
Qed.

End CFLAgain.

Lemma communicateCFL_never_lowers_a_cfl_witness :
  exists ranks',
    communicateCFL_world variable_dt_ranks = Some ranks' /\
    Forall2 (fun r r' => dt_variable r' = dt_variable r /\ (cfl r <= cfl r')%Q)
      variable_dt_ranks ranks'.
Proof.
  eexists. split; [reflexivity|].
  apply (communicateCFL_never_lowers_a_cfl variable_dt_ranks). reflexivity.
Defined.

Lemma communicateCFL_twice_witness :
  exists ranks',
    communicateCFL_world variable_dt_ranks = Some ranks' /\
    communicateCFL_world ranks' = Some ranks'.
Proof.
  eexists. split; [reflexivity|].
  apply (communicateCFL_twice variable_dt_ranks). reflexivity.
Defined.

(** * More on the sphere mappings *)

Section SphereFolds.

Lemma Qabs_at_most_1 (x : Q) : (-1 <= x)%Q -> (x <= 1)%Q -> (Qabs x <= 1)%Q.
Proof.
  intros Hlo Hhi. apply Qabs_Qle_condition. split; [exact Hlo | exact Hhi].
Qed.

(** The non-vectorized mapping folds every point that lies at most one
    domain width outside the computational domain [[-3,1] x [-1,1]] into the
    square [[-1,1] x [-1,1]], on the upper or the lower hemisphere, so its
    divisor [d] is at most 1 there. *)
Theorem nonvectorized_fold_lands_in_the_square (xc yc : Q) :
  (-5 <= xc)%Q -> (xc <= 3)%Q -> (-3 <= yc)%Q -> (yc <= 3)%Q ->
  exists x y sgnz,
    fold_nonvectorized xc yc = (x, y, sgnz) /\
    (-1 <= x)%Q /\ (x <= 1)%Q /\ (-1 <= y)%Q /\ (y <= 1)%Q /\
    (sgnz = 1%Q \/ sgnz = (-1)%Q) /\
    (d_nonvectorized xc yc <= 1)%Q.
Proof.
  intros Hx1 Hx2 Hy1 Hy2.
  assert (Hfold : exists x y sgnz,
            fold_nonvectorized xc yc = (x, y, sgnz) /\
            (-1 <= x)%Q /\ (x <= 1)%Q /\ (-1 <= y)%Q /\ (y <= 1)%Q /\
            (sgnz = 1%Q \/ sgnz = (-1)%Q)).
  { unfold fold_nonvectorized.
    destruct (Qle_bool 1 xc) eqn:E1;
      match goal with |- context [Qle_bool ?a (-3)] => destruct (Qle_bool a (-3)) eqn:E2 end;
      destruct (Qle_bool 1 yc) eqn:E3;
      match goal with |- context [Qle_bool ?a (-1)] => destruct (Qle_bool a (-1)) eqn:E4 end;
      match goal with |- context [Qle_bool ?a (-1)] => destruct (Qle_bool a (-1)) eqn:E5 end;
      qle_bools;
      do 3 eexists; (split; [reflexivity|]);
      repeat split; try lra; auto. }
  destruct Hfold as [x [y [sgnz [E [Hxl [Hxu [Hyl [Hyu Hs]]]]]]]].
  exists x, y, sgnz. repeat split; try assumption.
  unfold d_nonvectorized. rewrite E.
  apply Q.max_lub; [apply Q.max_lub; apply Qabs_at_most_1; assumption|].
  unfold Qle. simpl. lia.
Qed.

(** Inside the computational domain, off the line [xc = -1], the two
    mappings fold a point alike: the same coordinates in the square, the
    same hemisphere, the same divisor. *)
Theorem the_two_mappings_fold_alike_inside (xc yc : Q) :
  (-3 < xc)%Q -> (xc < 1)%Q -> (-1 < yc)%Q -> (yc < 1)%Q -> ~ (xc == -1)%Q ->
  fold_vectorized xc yc = fold_nonvectorized xc yc /\
  d_vectorized xc yc = d_nonvectorized xc yc.
Proof.
  intros Hx1 Hx2 Hy1 Hy2 Hx.
  assert (Hfold : fold_vectorized xc yc = fold_nonvectorized xc yc).
  { unfold fold_vectorized, fold_nonvectorized.
    replace (Qle_bool 1 xc) with false
      by (symmetry; destruct (Qle_bool 1 xc) eqn:E; [qle_bools; lra | reflexivity]).
    replace (Qle_bool xc (-3)) with false
      by (symmetry; destruct (Qle_bool xc (-3)) eqn:E; [qle_bools; lra | reflexivity]).
    replace (Qle_bool 1 yc) with false
      by (symmetry; destruct (Qle_bool 1 yc) eqn:E; [qle_bools; lra | reflexivity]).
    replace (Qle_bool yc (-1)) with false
      by (symmetry; destruct (Qle_bool yc (-1)) eqn:E; [qle_bools; lra | reflexivity]).
    replace (Qle_bool (-1) yc) with true
      by (symmetry; apply Qle_bool_iff; lra).
    cbn [negb].
    destruct (Qle_bool (-1) xc) eqn:E1; destruct (Qle_bool xc (-1)) eqn:E2;
      cbn [negb]; try reflexivity; qle_bools.
    - exfalso. apply Hx. lra.
    - lra. }
  split; [exact Hfold|].
  unfold d_vectorized, d_nonvectorized. rewrite Hfold. reflexivity.
Qed.

(** On the line [xc = -1] the two mappings disagree on the hemisphere. *)
Theorem the_two_mappings_differ_on_the_seam (yc : Q) :
  (-1 < yc)%Q -> (yc < 1)%Q ->
  snd (fold_nonvectorized (-1) yc) = (-1)%Q /\
  snd (fold_vectorized (-1) yc) = 1%Q.
Proof.
  intros Hy1 Hy2. unfold fold_vectorized, fold_nonvectorized.
  replace (Qle_bool 1 yc) with false
    by (symmetry; destruct (Qle_bool 1 yc) eqn:E; [qle_bools; lra | reflexivity]).
  replace (Qle_bool yc (-1)) with false
    by (symmetry; destruct (Qle_bool yc (-1)) eqn:E; [qle_bools; lra | reflexivity]).
  replace (Qle_bool (-1) yc) with true
    by (symmetry; apply Qle_bool_iff; lra).
  split; reflexivity.
Qed.

(** The vectorized mapping folds at the lower edges only.  No fold touches
    the coordinate of a point that lies beyond an upper edge: [yc > 1] comes
    back as given, and so does [xc > 1] when [yc >= -1]; that coordinate is
    handed on without any arithmetic, so the divisor [d] exceeds 1.  (For
    [xc > 1] with [yc < -1] the two folds reflect [xc] twice; that case is
    left out.) *)
Theorem vectorized_keeps_the_upper_ghost_coordinates (xc yc : Q) :
  ((1 < yc)%Q ->
     snd (fst (fold_vectorized xc yc)) = yc /\ (1 < d_vectorized xc yc)%Q) /\
  ((1 < xc)%Q -> (-1 <= yc)%Q ->
     fst (fst (fold_vectorized xc yc)) = xc /\ (1 < d_vectorized xc yc)%Q).
Proof.
  split.
  - intros Hy.
    assert (Hfold : snd (fst (fold_vectorized xc yc)) = yc).
    { unfold fold_vectorized.
      replace (Qle_bool (-1) yc) with true by (symmetry; apply Qle_bool_iff; lra).
      cbn [negb]. destruct (Qle_bool (-1) xc); reflexivity. }
    split; [exact Hfold|].
    unfold d_vectorized.
    destruct (fold_vectorized xc yc) as [[x y] sgnz]. cbn [fst snd] in Hfold.
    subst y.
    pose proof (Qle_Qabs yc) as Hay.
    pose proof (Q.le_max_r (Qabs x) (Qabs yc)) as Hmy.
    pose proof (Q.le_max_l (Qmax (Qabs x) (Qabs yc)) (1 # 10000000000)) as Hm.
    lra.
  - intros Hx Hy.
    assert (Hfold : fold_vectorized xc yc = (xc, yc, 1%Q)).
    { unfold fold_vectorized.
      replace (Qle_bool (-1) yc) with true by (symmetry; apply Qle_bool_iff; lra).
      cbn [negb].
      replace (Qle_bool (-1) xc) with true by (symmetry; apply Qle_bool_iff; lra).
      reflexivity. }
    unfold d_vectorized. rewrite Hfold. cbn [fst snd]. split; [reflexivity|].
    pose proof (Qle_Qabs xc) as Hax.
    pose proof (Q.le_max_l (Qabs xc) (Qabs yc)) as Hmx.
    pose proof (Q.le_max_l (Qmax (Qabs xc) (Qabs yc)) (1 # 10000000000)) as Hm.
    lra.
Qed.

End SphereFolds.

Lemma nonvectorized_fold_lands_in_the_square_witness :
  exists x y sgnz,
    fold_nonvectorized (5 # 2) (- (3 # 2)) = (x, y, sgnz) /\
    (-1 <= x)%Q /\ (x <= 1)%Q /\ (-1 <= y)%Q /\ (y <= 1)%Q /\
    (sgnz = 1%Q \/ sgnz = (-1)%Q) /\
    (d_nonvectorized (5 # 2) (- (3 # 2)) <= 1)%Q.
Proof.
  apply (nonvectorized_fold_lands_in_the_square (5 # 2) (- (3 # 2)));
    unfold Qle; simpl; lia.
Defined.

Lemma the_two_mappings_fold_alike_inside_witness :
  fold_vectorized (- (5 # 2)) (1 # 3) = fold_nonvectorized (- (5 # 2)) (1 # 3) /\
  d_vectorized (- (5 # 2)) (1 # 3) = d_nonvectorized (- (5 # 2)) (1 # 3).
Proof.
  apply (the_two_mappings_fold_alike_inside (- (5 # 2)) (1 # 3));
    try (unfold Qlt; simpl; lia).
  unfold Qeq. simpl. lia.
Defined.

Lemma the_two_mappings_differ_on_the_seam_witness :
  snd (fold_nonvectorized (-1) 0) = (-1)%Q /\ snd (fold_vectorized (-1) 0) = 1%Q.
Proof.
  apply (the_two_mappings_differ_on_the_seam 0); unfold Qlt; simpl; lia.
Defined.

Lemma vectorized_keeps_the_upper_ghost_coordinates_witness :
  (snd (fst (fold_vectorized 0 (3 # 2))) = (3 # 2)%Q /\
   (1 < d_vectorized 0 (3 # 2))%Q) /\
  (fst (fst (fold_vectorized (3 # 2) 0)) = (3 # 2)%Q /\
   (1 < d_vectorized (3 # 2) 0)%Q).
Proof.
  destruct (vectorized_keeps_the_upper_ghost_coordinates 0 (3 # 2)) as [Hy _].
  destruct (vectorized_keeps_the_upper_ghost_coordinates (3 # 2) 0) as [_ Hx].
  split; [apply Hy | apply Hx]; unfold Qlt, Qle; simpl; lia.
Defined.

(** * More on [qinit] *)

Section QInitFills.

Context `{NumPy}.

Lemma set_item3_spec (s0 s1 s2 c i j : nat) (v : Q) (q : ndarray Q) :
  shape q = [s0; s1; s2] ->
  (c < s0)%nat -> (i < s1)%nat -> (j < s2)%nat ->
  exists q1,
    set_item3 (Z.of_nat c) (Z.of_nat i) (Z.of_nat j) v q = Done q1 /\
    shape q1 = [s0; s1; s2] /\
    forall a b d,
      item q1 [a; b; d] =
        if Nat.eqb a c && Nat.eqb b i && Nat.eqb d j then v else item q [a; b; d].
Proof.
  intros Hs Hc Hi Hj. unfold set_item3. rewrite Hs.
  rewrite !norm_index_nonneg by lia. rewrite !Nat2Z.id.
  eexists. split; [reflexivity|]. split; [reflexivity|].
  intros a b d. reflexivity.
Qed.

(** A cell outside the third quadrant receives its four components. *)
Lemma qinit_cell_spec (p_center : nat -> nat -> Q * Q * Q) (s0 s1 s2 i j : nat)
    (q : ndarray Q) :
  shape q = [s0; s1; s2] ->
  (4 <= s0)%nat -> (i < s1)%nat -> (j < s2)%nat ->
  ~ third_quadrant (p_center i j) ->
  exists v q1,
    initial_state (p_center i j) = inr v /\
    qinit_cell p_center (i, j) q = Done q1 /\
    shape q1 = [s0; s1; s2] /\
    forall c a b,
      item q1 [c; a; b] =
        if Nat.eqb a i && Nat.eqb b j && (c <? 4)%nat then component c v
        else item q [c; a; b].
Proof.
  intros Hs H4 Hi Hj Hq. unfold qinit_cell, initial_state.
  destruct (p_center i j) as [[xp yp] zp].
  match goal with
  | |- context [qinit_theta xp yp zp ?rad] =>
      destruct (qinit_theta_elsewhere xp yp zp rad Hq) as [theta ->]
  end.
  destruct (rossby_haurwitz theta (qinit_phi zp)) as [[[q0 q1] q2] q3].
  destruct (set_item3_spec s0 s1 s2 0 i j q0 q Hs) as [a0 [E0 [S0 I0]]]; try lia.
  destruct (set_item3_spec s0 s1 s2 1 i j q1 a0 S0) as [a1 [E1 [S1 I1]]]; try lia.
  destruct (set_item3_spec s0 s1 s2 2 i j q2 a1 S1) as [a2 [E2 [S2 I2]]]; try lia.
  destruct (set_item3_spec s0 s1 s2 3 i j q3 a2 S2) as [a3 [E3 [S3 I3]]]; try lia.
  exists (q0, q1, q2, q3), a3. split; [reflexivity|].
  cbn [Z.of_nat Pos.of_succ_nat Pos.succ] in E0, E1, E2, E3.
  rewrite E0. cbn [bind]. rewrite E1. cbn [bind]. rewrite E2. cbn [bind].
  split; [exact E3|]. split; [exact S3|].
  intros c a b. rewrite I3, I2, I1, I0.
  destruct (Nat.eqb a i); destruct (Nat.eqb b j);
    rewrite ?andb_false_r; cbn [andb]; try reflexivity;
    destruct c as [|[|[|[|c]]]]; reflexivity.
Qed.

Lemma cell_in_dec (ab : nat * nat) (l : list (nat * nat)) : {In ab l} + {~ In ab l}.
Proof.
  apply in_dec. decide equality; apply Nat.eq_dec.
Qed.

Lemma for_cells_fills (p_center : nat -> nat -> Q * Q * Q) (s0 s1 s2 : nat)
    (l : list (nat * nat)) :
  (4 <= s0)%nat ->
  (forall i j, In (i, j) l ->
     (i < s1)%nat /\ (j < s2)%nat /\ ~ third_quadrant (p_center i j)) ->
  forall q, shape q = [s0; s1; s2] ->
    exists q',
      for_cells l (qinit_cell p_center) q = Done q' /\
      shape q' = [s0; s1; s2] /\
      (forall c a b, In (a, b) l -> (c < 4)%nat ->
         exists v, initial_state (p_center a b) = inr v /\
                   item q' [c; a; b] = component c v) /\
      (forall c a b, ~ (In (a, b) l /\ (c < 4)%nat) ->
         item q' [c; a; b] = item q [c; a; b]).
Proof.
  intros H4. induction l as [|[i j] l IH]; intros Hl q Hs.
  - exists q. split; [reflexivity|]. split; [exact Hs|]. split.
    + intros c a b [].
    + reflexivity.
  - destruct (Hl i j (or_introl eq_refl)) as [Hi [Hj Hq]].
    destruct (qinit_cell_spec p_center s0 s1 s2 i j q Hs H4 Hi Hj Hq)
      as [v [q1 [Ev [E1 [Hs1 Hi1]]]]].
    destruct (IH (fun a b Hab => Hl a b (or_intror Hab)) q1 Hs1)
      as [q' [E' [Hs' [Hin Hout]]]].
    exists q'. cbn [for_cells]. rewrite E1. cbn [bind].
    split; [exact E'|]. split; [exact Hs'|]. split.
    + intros c a b Hab Hc.
      destruct (cell_in_dec (a, b) l) as [Hl'|Hl'].
      * apply Hin; assumption.
      * destruct Hab as [Eab|Hab]; [|contradiction].
        inversion Eab; subst a b. exists v. split; [exact Ev|].
        rewrite Hout by tauto. rewrite Hi1, !Nat.eqb_refl.
        replace (c <? 4)%nat with true by (symmetry; apply Nat.ltb_lt; lia).
        reflexivity.
    + intros c a b Hnot.
      rewrite Hout by (intros [Hab Hc]; apply Hnot; split; [right|]; assumption).
      rewrite Hi1.
      destruct (Nat.eqb a i) eqn:Ea; destruct (Nat.eqb b j) eqn:Eb;
        destruct (c <? 4)%nat eqn:Ec; cbn [andb]; try reflexivity.
      apply Nat.eqb_eq in Ea, Eb. apply Nat.ltb_lt in Ec. subst a b.
      exfalso. apply Hnot. split; [left; reflexivity | exact Ec].
Qed.

(** On a grid that fits the array, with no cell centre in the third
    quadrant, [qinit] returns: every cell of the grid holds the four
    components computed from its centre, and every other entry of the array
    is as it was.  With the theorem for the third quadrant this makes
    [qinit] return exactly on the grids that avoid that quadrant. *)
Theorem qinit_fills_the_grid (p_center : nat -> nat -> Q * Q * Q)
    (q : ndarray Q) (mx my : Z) (s0 s1 s2 : nat) :
  shape q = [s0; s1; s2] ->
  (4 <= s0)%nat -> mx <= Z.of_nat s1 -> my <= Z.of_nat s2 ->
  (forall i j, Z.of_nat i < mx -> Z.of_nat j < my ->
     ~ third_quadrant (p_center i j)) ->
  exists q',
    qinit p_center q mx my = Done q' /\
    shape q' = shape q /\
    (forall c i j, (c < 4)%nat -> Z.of_nat i < mx -> Z.of_nat j < my ->
       exists v, initial_state (p_center i j) = inr v /\
                 item q' [c; i; j] = component c v) /\
    (forall c i j, ~ ((c < 4)%nat /\ Z.of_nat i < mx /\ Z.of_nat j < my) ->
       item q' [c; i; j] = item q [c; i; j]).
Proof.
  intros Hs H4 Hmx Hmy Hq. unfold qinit.
  destruct (for_cells_fills p_center s0 s1 s2 (cells mx my) H4) with (q := q)
    as [q' [E' [Hs' [Hin Hout]]]].
  - intros i j Hij. apply in_cells in Hij. repeat split; try lia.
    apply Hq; lia.
  - exact Hs.
  - exists q'. split; [exact E'|]. split; [congruence|]. split.
    + intros c i j Hc Hi Hj. apply Hin; [apply in_cells; lia | exact Hc].
    + intros c i j Hnot. apply Hout. intros [Hij Hc].
      apply in_cells in Hij. apply Hnot. repeat split; lia.
Qed.

End QInitFills.

Lemma qinit_fills_the_grid_witness :
  exists q',
    qinit (H := NumPy_stub) upper_centres q_zero 2 1 = Done q' /\
    shape q' = shape q_zero /\
    (forall c i j, (c < 4)%nat -> Z.of_nat i < 2 -> Z.of_nat j < 1 ->
       exists v, initial_state (H := NumPy_stub) (upper_centres i j) = inr v /\
                 item q' [c; i; j] = component c v) /\
    (forall c i j, ~ ((c < 4)%nat /\ Z.of_nat i < 2 /\ Z.of_nat j < 1) ->
       item q' [c; i; j] = item q_zero [c; i; j]).
Proof.
  apply (qinit_fills_the_grid (H := NumPy_stub) upper_centres q_zero 2 1 4 2 1);
    [reflexivity | lia | simpl; lia | simpl; lia |].
  intros i j Hi Hj Hq.
  destruct i as [|i]; simpl in Hq; destruct Hq as [_ Hy];
    unfold Qlt in Hy; simpl in Hy; lia.
Defined.

(** * The sphere mappings on whole arrays *)

Section SphereArrays.

Context `{NumPy}.

Lemma nonvectorized_point_defined (xc yc : Q) :
  exists xp yp zp, mapc2p_sphere_nonvectorized_point xc yc = Some (xp, yp, zp).
Proof.
  unfold mapc2p_sphere_nonvectorized_point.
  destruct (fold_nonvectorized xc yc) as [[x y] sgnz].
  rewrite fdiv_positive
    by (apply clamped_positive, d_nonvectorized_clamped).
  destruct (Qle_bool (Qabs x) (Qabs y)); do 3 eexists; reflexivity.
Qed.

Lemma length_appended (xs ys : nat -> nat -> Q) (ij : nat * nat) :
  List.length (appended xs ys ij) = 3%nat.
Proof.
  unfold appended.
  destruct (nonvectorized_point_defined (xs (fst ij) (snd ij)) (ys (fst ij) (snd ij)))
    as [xp [yp [zp ->]]].
  reflexivity.
Qed.

Lemma append_points_flat (xs ys : nat -> nat -> Q) (l : list (nat * nat))
    (pC : list Q) :
  append_points xs ys l pC = Some (pC ++ flat_map (appended xs ys) l).
Proof.
  revert pC. induction l as [|[i j] l IH]; intros pC; simpl.
  - rewrite app_nil_r. reflexivity.
  - unfold appended at 1. simpl.
    destruct (nonvectorized_point_defined (xs i j) (ys i j)) as [xp [yp [zp ->]]].
    rewrite IH, <- app_assoc. reflexivity.
Qed.

Lemma nth_flat_map_chunks {A B} (f : A -> list B) (n : nat) (l : list A)
    (k c : nat) (dA : A) (dB : B) :
  (forall x, List.length (f x) = n) ->
  (k < List.length l)%nat -> (c < n)%nat ->
  nth (k * n + c) (flat_map f l) dB = nth c (f (nth k l dA)) dB.
Proof.
  intros Hn. revert k. induction l as [|x l IH]; intros k Hk Hc; simpl in Hk; [lia|].
  simpl. destruct k as [|k].
  - simpl. apply app_nth1. rewrite Hn. exact Hc.
  - rewrite app_nth2; rewrite Hn; [|lia].
    replace (S k * n + c - n)%nat with (k * n + c)%nat by lia.
    apply IH; lia.
Qed.

Lemma length_flat_map_chunks {A B} (f : A -> list B) (n : nat) (l : list A) :
  (forall x, List.length (f x) = n) ->
  List.length (flat_map f l) = (List.length l * n)%nat.
Proof.
  intros Hn. induction l as [|x l IH]; [reflexivity|].
  simpl. rewrite length_app, Hn, IH. reflexivity.
Qed.

Lemma length_cells (mx my : Z) :
  List.length (cells mx my) = (Z.to_nat mx * Z.to_nat my)%nat.
Proof.
  unfold cells.
  rewrite (length_flat_map_chunks _ (Z.to_nat my)).
  - rewrite length_seq. reflexivity.
  - intros i. rewrite length_map, length_seq. reflexivity.
Qed.

Lemma nth_cells (mx my : Z) (i j : nat) :
  (i < Z.to_nat mx)%nat -> (j < Z.to_nat my)%nat ->
  nth (i * Z.to_nat my + j) (cells mx my) (0%nat, 0%nat) = (i, j).
Proof.
  intros Hi Hj. unfold cells.
  rewrite (nth_flat_map_chunks _ (Z.to_nat my) _ i j 0%nat).
  - rewrite seq_nth by exact Hi.
    rewrite (nth_indep _ _ (0%nat + i, 0%nat)%nat)
      by (rewrite length_map, length_seq; exact Hj).
    rewrite (map_nth (fun j0 => ((0 + i)%nat, j0))), seq_nth by exact Hj.
    reflexivity.
  - intros x. rewrite length_map, length_seq. reflexivity.
  - rewrite length_seq. exact Hi.
  - exact Hj.
Qed.

(** [mapc2p_sphere_nonvectorized] returns one flat list of [3*mx*my]
    numbers, cell after cell in the order of its loops: the coordinates of
    the cell [(i, j)] stand at the positions [3*(i*my + j)] and the two
    after it.  (Its docstring, and [mapc2p_sphere_vectorized], give a list
    of three arrays.) *)
Theorem nonvectorized_returns_a_flat_list (mx my : nat)
    (mC : (nat -> nat -> Q) * (nat -> nat -> Q)) :
  exists pC,
    mapc2p_sphere_nonvectorized (Z.of_nat mx, Z.of_nat my) mC = Some pC /\
    List.length pC = (3 * (mx * my))%nat /\
    forall i j, (i < mx)%nat -> (j < my)%nat ->
      exists xp yp zp,
        mapc2p_sphere_nonvectorized_point (fst mC i j) (snd mC i j)
        = Some (xp, yp, zp) /\
        nth ((i * my + j) * 3) pC 0%Q = xp /\
        nth ((i * my + j) * 3 + 1) pC 0%Q = yp /\
        nth ((i * my + j) * 3 + 2) pC 0%Q = zp.
Proof.
  unfold mapc2p_sphere_nonvectorized. cbn [fst snd].
  rewrite append_points_flat. cbn [app].
  eexists. split; [reflexivity|]. split.
  - rewrite (length_flat_map_chunks _ 3) by apply length_appended.
    rewrite length_cells, !Nat2Z.id. lia.
  - intros i j Hi Hj.
    assert (Hk : (i * my + j < List.length
                                 (cells (Z.of_nat mx) (Z.of_nat my)))%nat).
    { rewrite length_cells, !Nat2Z.id. nia. }
    pose proof (nth_cells (Z.of_nat mx) (Z.of_nat my) i j) as Hcell.
    rewrite !Nat2Z.id in Hcell. specialize (Hcell Hi Hj).
    destruct (nonvectorized_point_defined (fst mC i j) (snd mC i j))
      as [xp [yp [zp Ep]]].
    exists xp, yp, zp. split; [exact Ep|].
    assert (Hchunk : appended (fst mC) (snd mC) (i, j) = [xp; yp; zp]).
    { unfold appended. cbn [fst snd]. rewrite Ep. reflexivity. }
    replace ((i * my + j) * 3)%nat with ((i * my + j) * 3 + 0)%nat at 1 by lia.
    rewrite !(nth_flat_map_chunks _ 3 _ (i * my + j) _ (0%nat, 0%nat))
      by (try apply length_appended; try exact Hk; lia).
    rewrite Hcell, Hchunk. repeat split.
Qed.

(** Folding a folded point again leaves its coordinates and always answers
    with the upper hemisphere. *)
Lemma fold_vectorized_again (xc yc : Q) :
  fold_vectorized (fst (fst (fold_vectorized xc yc)))
    (snd (fst (fold_vectorized xc yc)))
  = (fst (fst (fold_vectorized xc yc)), snd (fst (fold_vectorized xc yc)), 1%Q).
Proof.
  unfold fold_vectorized at 2 3 4 5.
  destruct (Qle_bool (-1) yc) eqn:E1; cbn [negb];
    match goal with
    | |- context [if negb (Qle_bool (-1) ?a) then _ else _] =>
        destruct (Qle_bool (-1) a) eqn:E2
    end; cbn [negb fst snd]; qle_bools; unfold fold_vectorized;
    match goal with
    | |- context [if negb (Qle_bool (-1) ?y) then (_, _) else (?x, ?y)] =>
        replace (Qle_bool (-1) y) with true
          by (symmetry; apply Qle_bool_iff; lra);
        cbn [negb];
        replace (Qle_bool (-1) x) with true
          by (symmetry; apply Qle_bool_iff; lra)
    end; reflexivity.
Qed.

(** [mapc2p_sphere_vectorized] overwrites the arrays it is given with the
    folded coordinates, which keep no trace of the hemisphere.  A second
    call on the same arrays leaves them as they are, returns the same [xp]
    and [yp], and returns every [zp] with the sign of the upper hemisphere:
    for a cell the first call put on the lower hemisphere, the opposite of
    the first call's [zp]. *)
Theorem vectorized_forgets_the_hemisphere
    (mC : (nat -> nat -> Q) * (nat -> nat -> Q)) (i j : nat) :
  let first := mapc2p_sphere_vectorized mC in
  let second := mapc2p_sphere_vectorized (fst first) in
  fst (fst second) i j = fst (fst first) i j /\
  snd (fst second) i j = snd (fst first) i j /\
  exists xp yp zp zp',
    mapc2p_sphere_vectorized_point (fst mC i j) (snd mC i j) = Some (xp, yp, zp) /\
    mapc2p_sphere_vectorized_point (fst (fst first) i j) (snd (fst first) i j)
    = Some (xp, yp, zp') /\
    (snd (fold_vectorized (fst mC i j) (snd mC i j)) = (-1)%Q -> (zp' == - zp)%Q) /\
    (snd (fold_vectorized (fst mC i j) (snd mC i j)) = 1%Q -> zp' = zp).
Proof.
  cbn zeta. unfold mapc2p_sphere_vectorized. cbn [fst snd].
  set (xc := fst mC i j). set (yc := snd mC i j).
  pose proof (fold_vectorized_again xc yc) as Hagain.
  split; [rewrite Hagain; reflexivity|].
  split; [rewrite Hagain; reflexivity|].
  unfold mapc2p_sphere_vectorized_point, d_vectorized.
  rewrite Hagain.
  destruct (fold_vectorized xc yc) as [[x y] sgnz]. cbn [fst snd].
  assert (Hd : (0 < Qmax (Qmax (Qabs x) (Qabs y)) (1 # 10000000000))%Q).
  { apply clamped_positive, Q.le_max_r. }
  rewrite fdiv_positive by exact Hd.
  do 4 eexists. split; [reflexivity|]. split; [reflexivity|].
  split; intros ->; [ring | reflexivity].
Qed.

End SphereArrays.
